(** * srsRAN E2 agent and choice type: a shallow embedding

    Two parts of the repository are embedded here:

    - [choice_details] and [choice_t]: the compile-time tagged union of
      [lib/include/srslte/common/choice_type.h] (type list lookups,
      checked and unchecked access, construction, destruction, assignment);
    - [e2]: the E2 agent of [srsgnb/src/stack/ric/e2_agent.cc] (receive
      path, dispatcher, procedure handlers, run loop, stop).

    Definitions keep the names of the source. *)

From Stdlib Require Import ZArith.
From stdpp Require Import base decidable option list strings gmap.

Local Open Scope Z_scope.

(** ** choice_type.h *)

Module choice_details.

(** C++ types, as far as [std::is_same] and [std::decay] tell them apart:
    object types by name, top-level [const], and the two reference kinds a
    forwarding reference [U&&] deduces. *)
Inductive cpp_type : Type :=
| void_t
| class_t (name : string)
| const_t (T : cpp_type)
| lvalue_ref_t (T : cpp_type)
| rvalue_ref_t (T : cpp_type).

#[global] Instance cpp_type_eq_dec : EqDecision cpp_type.
Proof. solve_decision. Defined.

Definition remove_reference (T : cpp_type) : cpp_type :=
  match T with
  | lvalue_ref_t U | rvalue_ref_t U => U
  | _ => T
  end.

Definition remove_cv (T : cpp_type) : cpp_type :=
  match T with
  | const_t U => U
  | _ => T
  end.

(** [std::decay<U>::type] on object types and references to them. *)
Definition decay (T : cpp_type) : cpp_type := remove_cv (remove_reference T).

(** A cv-unqualified object type, which is what an alternative of a choice
    is meant to be: [std::decay] leaves it as it is. *)
Definition is_object_type (T : cpp_type) : bool :=
  match T with
  | class_t _ => true
  | _ => false
  end.

(** [using size_idx_t = std::size_t;] on an LP64 target, kept as a [Z]. *)
Definition size_idx_t : Type := Z.

(** [invalid_idx = std::numeric_limits<size_idx_t>::max()]. *)
Definition invalid_idx : size_idx_t := 2 ^ 64 - 1.

(** Arithmetic on [std::size_t] wraps around. *)
Definition size_wrap (z : Z) : size_idx_t := z mod 2 ^ 64.

(** [sizeof...(Types)]. *)
Definition sizeof_pack (Types : list cpp_type) : size_idx_t :=
  Z.of_nat (length Types).

(** [type_indexer<T, Types...>::index]: the reversed position of the first
    [First] that is the same type as [T]; [invalid_idx] on the empty pack. *)
Fixpoint type_indexer (T : cpp_type) (Types : list cpp_type) : size_idx_t :=
  match Types with
  | [] => invalid_idx
  | First :: Types' =>
      if bool_decide (T = First) then sizeof_pack Types'
      else type_indexer T Types'
  end.

(** [type_get<I, Types...>::type]: [First] where [I == sizeof...(Types)],
    [void] on the empty pack. *)
Fixpoint type_get (I : size_idx_t) (Types : list cpp_type) : cpp_type :=
  match Types with
  | [] => void_t
  | First :: Types' =>
      if I =? sizeof_pack Types' then First else type_get I Types'
  end.

(** [static_max<arg1, others...>::value]: the first two arguments are
    compared and the larger one carried on. *)
Fixpoint static_max (arg1 : Z) (others : list Z) : Z :=
  match others with
  | [] => arg1
  | arg2 :: others' =>
      if arg1 >=? arg2 then static_max arg1 others' else static_max arg2 others'
  end.

(** [class bad_choice_access : public std::runtime_error]. *)
Inductive bad_choice_access : Type :=
| bad_choice_access_what (what_arg : string).

Section tagged_union.

(** Object representations held by the aligned buffer. *)
Context {value : Type}.

(** The alternatives [Args...] of the union. *)
Variable Args : list cpp_type.

(** [tagged_union_t<Args...>]: the [type_id] tag and the storage of
    [choice_storage_t]. *)
Record tagged_union_t : Type := mk_tagged_union {
  type_id : size_idx_t;
  buffer : value
}.

(** Constructor and destructor calls an operation performs on the storage,
    in program order. *)
Inductive lifetime_event : Type :=
| ctor_call (T : cpp_type) (v : value)
| dtor_call (T : cpp_type) (v : value).

Definition is_dtor_call (e : lifetime_event) : bool :=
  match e with
  | dtor_call _ _ => true
  | ctor_call _ _ => false
  end.

(** [get_unsafe<T>()]: the buffer reinterpreted, whatever it holds. *)
Definition get_unsafe (T : cpp_type) (c : tagged_union_t) : value := buffer c.

(** [destroy_unsafe<U>()]: [get_unsafe<U>().~U()]. *)
Definition destroy_unsafe (U : cpp_type) (c : tagged_union_t) : list lifetime_event :=
  [dtor_call U (get_unsafe U c)].

(** [is<T>()]: [type_indexer<T, Args...>::index == type_id] ([is] is a
    reserved word here, hence the underscore). *)
Definition is_ (T : cpp_type) (c : tagged_union_t) : bool :=
  type_indexer T Args =? type_id c.

(** [can_hold_type<T>()]. *)
Definition can_hold_type (T : cpp_type) : bool :=
  negb (type_indexer T Args =? invalid_idx).

(** [visit_impl<F, V, Types...>::apply]: the functor is applied to the
    first alternative among [Types] that [c] says it holds, and to the last
    one without a test. There is no specialisation for an empty pack, hence
    no call. *)
Fixpoint visit_impl {R : Type} (f : cpp_type -> value -> R)
    (c : tagged_union_t) (Types : list cpp_type) : option R :=
  match Types with
  | [] => None
  | [T] => Some (f T (get_unsafe T c))
  | First :: (_ :: _) as Types' =>
      if is_ First c then Some (f First (get_unsafe First c))
      else visit_impl f c Types'
  end.

(** [visit(u, f)]. *)
Definition visit {R : Type} (f : cpp_type -> value -> R) (c : tagged_union_t) : option R :=
  visit_impl f c Args.

(** [dtor_unsafe()]: visiting with [DtorUnsafeVisitor]. *)
Definition dtor_unsafe (c : tagged_union_t) : list lifetime_event :=
  default [] (visit (fun T _ => destroy_unsafe T c) c).

(** [construct_unsafe(U&& u)]: sets the tag of [decay<U>] and placement-news
    a [decay<U>] from [u] into the buffer. The [static_assert] makes
    [can_hold_type (decay U)] a precondition of every instantiation. *)
Definition construct_unsafe (U : cpp_type) (u : value) (c : tagged_union_t)
  : tagged_union_t * list lifetime_event :=
  let U2 := decay U in
  ({| type_id := type_indexer U2 Args; buffer := u |}, [ctor_call U2 u]).

(** [construct_emplace_unsafe<U>(args...)], with [u] the object that
    [U2(args...)] builds. *)
Definition construct_emplace_unsafe (U : cpp_type) (u : value) (c : tagged_union_t)
  : tagged_union_t * list lifetime_event :=
  let U2 := decay U in
  ({| type_id := type_indexer U2 Args; buffer := u |}, [ctor_call U2 u]).

(** [copy_unsafe(other)]: visiting [other] with [CopyCtorVisitor], which
    calls [construct_unsafe] with a [const T&]. *)
Definition copy_unsafe (other c : tagged_union_t) : tagged_union_t * list lifetime_event :=
  default (c, []) (visit (fun T t => construct_unsafe (lvalue_ref_t (const_t T)) t c) other).

(** [move_unsafe(other)]: visiting [other] with [MoveCtorVisitor], which
    calls [construct_unsafe] with an rvalue. *)
Definition move_unsafe (other c : tagged_union_t) : tagged_union_t * list lifetime_event :=
  default (c, []) (visit (fun T t => construct_unsafe (rvalue_ref_t T) t c) other).

(** [default_type]: [type_get<sizeof...(Args) - 1, Args...>::type]. *)
Definition default_type : cpp_type := type_get (size_wrap (sizeof_pack Args - 1)) Args.

(** [base_t::max_size] and [base_t::max_align] of [tagged_union_t]:
    [static_max<sizeof(Args)...>::value] and
    [static_max<alignof(Args)...>::value], for the [sizeof] and [alignof]
    of the target. There is none for an empty pack. *)
Definition max_size (size_of : cpp_type -> Z) : option Z :=
  match size_of <$> Args with
  | [] => None
  | arg1 :: others => Some (static_max arg1 others)
  end.

Definition max_align (align_of : cpp_type -> Z) : option Z :=
  match align_of <$> Args with
  | [] => None
  | arg1 :: others => Some (static_max arg1 others)
  end.

(** [get<T>()]: the checked read; throws [bad_choice_access]. *)
Definition get (T : cpp_type) (c : tagged_union_t) : value + bad_choice_access :=
  if is_ T c then inl (get_unsafe T c)
  else inr (bad_choice_access_what "in get<T>").

(** [get<I>()], with [T = type_get<sizeof...(Args) - I - 1, Args...>::type]. *)
Definition get_at (I : size_idx_t) (c : tagged_union_t) : value + bad_choice_access :=
  let T := type_get (size_wrap (sizeof_pack Args - I - 1)) Args in
  if is_ T c then inl (get_unsafe T c)
  else inr (bad_choice_access_what "in get<I>").

(** [get_if<T>()]: a null pointer instead of an exception. *)
Definition get_if (T : cpp_type) (c : tagged_union_t) : option value :=
  if is_ T c then Some (get_unsafe T c) else None.

End tagged_union.

End choice_details.

(** [choice_t<Args...>], the public face of the tagged union. *)
Module choice_t.
Import choice_details.

Section choice.

Context {value : Type}.
Variable Args : list cpp_type.

Abbreviation choice := (@tagged_union_t value).
Abbreviation events := (list (@lifetime_event value)).

(** [choice_t(U&& u)]. *)
Definition ctor (U : cpp_type) (u : value) : choice * events :=
  ({| type_id := type_indexer (decay U) Args; buffer := u |}, [ctor_call (decay U) u]).

(** [choice_t& operator=(U&& u)]: [U] is the deduced template argument,
    so [T&] or [const T&] for an lvalue and [T] for an rvalue. The test is
    on [U] as deduced, the construction on [decay<U>]. *)
Definition assign (U : cpp_type) (u : value) (c : choice) : choice * events :=
  let destroyed := if negb (is_ Args U c) then dtor_unsafe Args c else [] in
  let '(c', constructed) := construct_unsafe Args U u c in
  (c', destroyed ++ constructed).

(** [emplace<U>(args...)]. *)
Definition emplace (U : cpp_type) (u : value) (c : choice) : choice * events :=
  let destroyed := dtor_unsafe Args c in
  let '(c', constructed) := construct_emplace_unsafe Args U u c in
  (c', destroyed ++ constructed).

(** [choice_t& operator=(const choice_t& other)]; [same_object] is the
    outcome of [this != &other] negated. *)
Definition assign_copy (same_object : bool) (other c : choice) : choice * events :=
  if same_object then (c, [])
  else
    let destroyed := dtor_unsafe Args c in
    let '(c', constructed) := copy_unsafe Args other c in
    (c', destroyed ++ constructed).

(** [choice_t& operator=(choice_t&& other)]. *)
Definition assign_move (other c : choice) : choice * events :=
  let destroyed := dtor_unsafe Args c in
  let '(c', constructed) := move_unsafe Args other c in
  (c', destroyed ++ constructed).

(** [explicit choice_t(Args2&&... args)]: the default alternative built
    from [args], [u] being the object built; [uninit] is the storage before
    the constructor has run. *)
Definition ctor_default (uninit : choice) (u : value) : choice * events :=
  construct_emplace_unsafe Args (default_type Args) u uninit.

(** [choice_t(const choice_t<Args...>& other)]. *)
Definition ctor_copy (uninit other : choice) : choice * events :=
  copy_unsafe Args other uninit.

(** [choice_t(choice_t<Args...>&& other)]. *)
Definition ctor_move (uninit other : choice) : choice * events :=
  move_unsafe Args other uninit.

(** [~choice_t()]. *)
Definition dtor (c : choice) : events := dtor_unsafe Args c.

(** [holds_alternative<T>(u)]. *)
Definition holds_alternative (T : cpp_type) (c : choice) : bool := is_ Args T c.

(** The choice holds the alternative [P]: [P] is one of [Args] and the tag
    is its index. *)
Definition holds (P : cpp_type) (c : choice) : Prop :=
  P ∈ Args ∧ type_id c = type_indexer P Args.

(** [holds_same_type(other)]. *)
Definition holds_same_type (c other : choice) : bool :=
  type_id c =? type_id other.

(** The destructor calls among the events of an operation. *)
Definition destructions (es : events) : events := filter (fun e => is_dtor_call e = true) es.

End choice.

(** *** A choice to try things on

    [choice_t<std::string, int>], with strings standing for the values, and
    the two choices one gets from a string and from an [int]. *)

Definition string_or_int : list cpp_type := [class_t "std::string"; class_t "int"].

Definition holding_string : @tagged_union_t string := (ctor string_or_int (class_t "std::string") "old").1.

Definition holding_int : @tagged_union_t string := (ctor string_or_int (class_t "int") "7").1.

End choice_t.

(** ** e2_agent.cc *)

Module e2.

Local Open Scope N_scope.

(** *** E2AP messages

    The ASN.1 types of [srsran/asn1/e2ap.h] are not part of the sources at
    hand. The alternatives below are the ones [e2_agent.cc] names, with the
    fields it reads; every other alternative of a choice is kept as one
    constructor carrying its procedure code. *)

(** Modelled from the spec: the request identifier a subscription is keyed
    by, (requestor identifier, instance identifier); the type is declared
    in [asn1/e2ap.h]. *)
Record ri_crequest_id_s : Type := {
  ric_requestor_id : N;
  ric_instance_id : N
}.

(** Modelled from the spec: the payload of a Subscription Request, declared
    in [asn1/e2ap.h]: the request identifier, the target function and the
    actions asked for. *)
Record ricsubscription_request_s : Type := {
  ri_crequest_id : ri_crequest_id_s;
  ra_nfunction_id : N;
  ricsubscription_details : list N
}.

(** Modelled from the spec: the payload of a Subscription Delete Request,
    declared in [asn1/e2ap.h]. *)
Record ricsubscription_delete_request_s : Type := {
  del_ri_crequest_id : ri_crequest_id_s;
  del_ra_nfunction_id : N
}.

(** Modelled from the spec: the grant of a subscription, with the actions
    admitted; declared in [asn1/e2ap.h]. *)
Record ricsubscription_resp_s : Type := {
  resp_ri_crequest_id : ri_crequest_id_s;
  resp_ra_nfunction_id : N;
  ri_cactions_admitted : list N
}.

(** Modelled from the spec: the explicit refusal of a subscription;
    declared in [asn1/e2ap.h]. *)
Record ricsubscription_fail_s : Type := {
  fail_ri_crequest_id : ri_crequest_id_s;
  fail_ra_nfunction_id : N
}.

(** Modelled from the spec: the Setup Request, with its correlation key;
    declared in [asn1/e2ap.h]. *)
Record e2setup_request_s : Type := { setup_transaction_id : N }.

(** Modelled from the spec: the Setup Response, with its correlation key and
    the identifier the peer assigns; declared in [asn1/e2ap.h]. *)
Record e2setup_resp_s : Type := {
  setup_resp_transaction_id : N;
  global_ric_id : N
}.

(** Modelled from the spec: the Setup Failure, with its correlation key;
    declared in [asn1/e2ap.h]. *)
Record e2setup_fail_s : Type := { setup_fail_transaction_id : N }.

(** Modelled from the spec: the Reset Request, with its transaction;
    declared in [asn1/e2ap.h]. *)
Record reset_request_s : Type := { reset_transaction_id : N }.

(** Modelled from the spec: the Reset Response, with the transaction it
    acknowledges; declared in [asn1/e2ap.h]. *)
Record reset_resp_s : Type := { reset_resp_transaction_id : N }.

(** Modelled from the spec: [e2_ap_elem_procs_o::init_msg_c], the
    initiating messages by procedure; declared in [asn1/e2ap.h]. *)
Inductive init_msg_c : Type :=
| ricsubscription_request (r : ricsubscription_request_s)
| ricsubscription_delete_request (r : ricsubscription_delete_request_s)
| ri_cctrl_request
| e2conn_upd
| reset_request (r : reset_request_s)
| e2_removal_request
| e2setup_request (r : e2setup_request_s)
| init_msg_other (procedure_code : N).

(** Modelled from the spec: [e2_ap_elem_procs_o::successful_outcome_c], the
    successful outcomes by procedure; declared in [asn1/e2ap.h]. *)
Inductive successful_outcome_c : Type :=
| e2setup_resp (r : e2setup_resp_s)
| ricsubscription_resp (r : ricsubscription_resp_s)
| ri_cctrl_ack
| ricservice_upd_ack
| ricsubscription_delete_resp (r : ri_crequest_id_s)
| reset_resp (r : reset_resp_s)
| successful_outcome_other (procedure_code : N).

(** Modelled from the spec: [e2_ap_elem_procs_o::unsuccessful_outcome_c],
    the unsuccessful outcomes by procedure; declared in [asn1/e2ap.h]. *)
Inductive unsuccessful_outcome_c : Type :=
| e2setup_fail (r : e2setup_fail_s)
| e2node_cfg_upd_fail (transaction_id : N)
| ricservice_upd_fail (transaction_id : N)
| e2_removal_fail (transaction_id : N)
| ricsubscription_fail (r : ricsubscription_fail_s)
| unsuccessful_outcome_other (procedure_code : N).

(** Modelled from the spec: [e2_ap_pdu_c], a message with its three
    top-level alternatives (initiating message, successful outcome,
    unsuccessful outcome) and the unset choice; declared in [asn1/e2ap.h]. *)
Inductive e2_ap_pdu_c : Type :=
| init_msg (value : init_msg_c)
| successful_outcome (value : successful_outcome_c)
| unsuccessful_outcome (value : unsuccessful_outcome_c)
| nulltype.

(** Modelled from the spec: [e2_ap_pdu_c::types_opts], the envelope kind a
    PDU reports through [type()]; declared in [asn1/e2ap.h]. *)
Inductive types_opts : Type :=
| types_init_msg
| types_successful_outcome
| types_unsuccessful_outcome
| types_nulltype.

Definition pdu_type (pdu : e2_ap_pdu_c) : types_opts :=
  match pdu with
  | init_msg _ => types_init_msg
  | successful_outcome _ => types_successful_outcome
  | unsuccessful_outcome _ => types_unsuccessful_outcome
  | nulltype => types_nulltype
  end.

(** Modelled from the spec: [e2_msg_type_t], declared in [e2_agent.h],
    which is not part of the sources at hand: the three values [send_e2_msg]
    switches on, and the rest. *)
Inductive e2_msg_type_t : Type :=
| E2_SETUP_REQUEST
| E2_RESET
| E2_RESET_RESPONSE
| E2_other_msg_type (n : N).

Definition byte_buffer : Type := list Byte.byte.

(** *** Collaborators of the agent

    What the agent consumes and the sources at hand do not hold: the codec
    ([pack], [unpack]), the buffer pool, the SCTP socket calls of [init]
    and [send_sctp], and the policy constants of the E2AP procedures. The
    [nat] argument of a call is the number of sends made before it, so
    that an outcome may differ from one call to the next. *)
Class environment : Type := {
  unpack : byte_buffer -> option e2_ap_pdu_c;
  pack : e2_ap_pdu_c -> option byte_buffer;
  make_byte_buffer : nat -> bool;
  sctp_sendmsg : nat -> byte_buffer -> bool;
  open_socket : option Z;
  sctp_subscribe_to_events : bool;
  bind_addr : bool;
  connect_to : bool;
  admitted_actions : ricsubscription_request_s -> option (list N);
  procedure_timeout : N;
  retry_backoff : N
}.

(** *** The E2AP procedure state

    [class e2ap] ([e2ap.cc]) is not part of the sources at hand either:
    [e2_agent.cc] only calls it. Its state and every operation the agent
    calls are modelled from the specification of the session (data model,
    lifecycle transitions, testable properties). *)

(** Modelled from the spec: the kinds of procedure a Pending Procedure may
    be of, one for each response [e2_agent.cc] correlates. *)
Inductive procedure_kind : Type :=
| setup_procedure
| reset_procedure
| node_config_update_procedure
| service_update_procedure
| removal_procedure.

#[global] Instance procedure_kind_eq_dec : EqDecision procedure_kind.
Proof. solve_decision. Defined.

(** Modelled from the spec: the Pending Procedure of the data model, which
    [e2ap] keeps (procedure kind, correlation key, creation timestamp,
    expiry deadline). *)
Record pending_procedure : Type := {
  kind : procedure_kind;
  correlation_key : N;
  created : N;
  deadline : N
}.

(** Modelled from the spec: the Subscription Record of the data model, which
    [e2ap] keeps (requestor identifier, instance identifier, target function
    identifier, granted action set). *)
Record subscription_record : Type := {
  requestor_id : N;
  instance_id : N;
  function_id : N;
  granted_actions : list N
}.

(** Modelled from the spec: the session state [class e2ap] owns. Subscription
    Records are keyed by (requestor identifier, instance identifier); the
    outstanding-procedure set is kept in registration order; [clock] is the
    virtual clock the timers run on. *)
Record e2ap : Type := {
  e2_established : bool;
  pending : list pending_procedure;
  subscriptions : gmap (N * N) subscription_record;
  peer_assigned_id : option N;
  next_transaction_id : N;
  reset_id : N;
  clock : N;
  retry_at : N
}.

Definition set_pending (l : list pending_procedure) (e : e2ap) : e2ap :=
  {| e2_established := e2_established e; pending := l;
     subscriptions := subscriptions e; peer_assigned_id := peer_assigned_id e;
     next_transaction_id := next_transaction_id e; reset_id := reset_id e;
     clock := clock e; retry_at := retry_at e |}.

Definition set_subscriptions (m : gmap (N * N) subscription_record) (e : e2ap) : e2ap :=
  {| e2_established := e2_established e; pending := pending e;
     subscriptions := m; peer_assigned_id := peer_assigned_id e;
     next_transaction_id := next_transaction_id e; reset_id := reset_id e;
     clock := clock e; retry_at := retry_at e |}.

Definition set_retry_at (t : N) (e : e2ap) : e2ap :=
  {| e2_established := e2_established e; pending := pending e;
     subscriptions := subscriptions e; peer_assigned_id := peer_assigned_id e;
     next_transaction_id := next_transaction_id e; reset_id := reset_id e;
     clock := clock e; retry_at := t |}.

(** Modelled from the spec: the [e2ap] object a new agent is built with: no
    session, nothing pending, no subscription. *)
Definition e2ap_init : e2ap :=
  {| e2_established := false; pending := []; subscriptions := ∅;
     peer_assigned_id := None; next_transaction_id := 0; reset_id := 0;
     clock := 0; retry_at := 0 |}.

(** Modelled from the spec: the result codes of [srsran/config.h], which is
    not part of the sources at hand. Success is zero: a result used as a
    condition is true when the call failed. *)
Definition SRSRAN_SUCCESS : Z := 0%Z.
Definition SRSRAN_ERROR : Z := (-1)%Z.

(** A pending procedure answers to a response of kind [k] carrying [key]. *)
Definition correlates (k : procedure_kind) (key : N) (p : pending_procedure) : Prop :=
  kind p = k ∧ correlation_key p = key.

#[global] Instance correlates_dec k key p : Decision (correlates k key p).
Proof. unfold correlates. apply _. Defined.

Definition has_pending (k : procedure_kind) (e : e2ap) : bool :=
  bool_decide (Exists (fun p => kind p = k) (pending e)).

Definition is_pending (k : procedure_kind) (key : N) (e : e2ap) : bool :=
  bool_decide (Exists (correlates k key) (pending e)).

Definition remove_pending (k : procedure_kind) (key : N) (e : e2ap) : e2ap :=
  set_pending (filter (fun p => ¬ correlates k key p) (pending e)) e.

(** The number of Pending Setup Procedures. *)
Definition pending_setups (e : e2ap) : nat :=
  length (filter (fun p => kind p = setup_procedure) (pending e)).

Section e2ap_procedures.

Context `{environment}.

(** Modelled from the spec: [e2ap::send_setup_request()], the guard of the
    run loop. A Setup Request is due when no session is active, no Pending
    Setup Procedure exists (a second attempt while one is pending is
    rejected) and the backoff of the last failure has elapsed. *)
Definition send_setup_request (e : e2ap) : bool :=
  negb (e2_established e) && negb (has_pending setup_procedure e)
  && (retry_at e <=? clock e).

(** Modelled from the spec: [e2ap::generate_setup_request()]. It builds the
    Setup Request and registers its Pending Procedure with an expiry
    deadline. *)
Definition generate_setup_request (e : e2ap) : e2_ap_pdu_c * e2ap :=
  let id := next_transaction_id e in
  let p := {| kind := setup_procedure; correlation_key := id;
              created := clock e; deadline := clock e + procedure_timeout |} in
  (init_msg (e2setup_request {| setup_transaction_id := id |}),
   {| e2_established := e2_established e; pending := pending e ++ [p];
      subscriptions := subscriptions e; peer_assigned_id := peer_assigned_id e;
      next_transaction_id := id + 1; reset_id := reset_id e;
      clock := clock e; retry_at := retry_at e |}).

(** Modelled from the spec: [e2ap::process_setup_response]. A response that
    correlates with the Pending Setup Procedure clears it, records the
    peer-assigned identifier and establishes the session; a stale one is
    dropped and the state is left as it is. *)
Definition process_setup_response (r : e2setup_resp_s) (e : e2ap) : Z * e2ap :=
  let key := setup_resp_transaction_id r in
  if is_pending setup_procedure key e then
    let e' := remove_pending setup_procedure key e in
    (SRSRAN_SUCCESS,
     {| e2_established := true; pending := pending e';
        subscriptions := subscriptions e'; peer_assigned_id := Some (global_ric_id r);
        next_transaction_id := next_transaction_id e'; reset_id := reset_id e';
        clock := clock e'; retry_at := retry_at e' |})
  else (SRSRAN_ERROR, e).

(** Modelled from the spec: [e2ap::process_e2_setup_failure]. A correlated
    failure clears the pending state and schedules a retry after the
    backoff; a stale one is dropped. *)
Definition process_e2_setup_failure (r : e2setup_fail_s) (e : e2ap) : Z * e2ap :=
  let key := setup_fail_transaction_id r in
  if is_pending setup_procedure key e then
    (SRSRAN_SUCCESS,
     set_retry_at (clock e + retry_backoff) (remove_pending setup_procedure key e))
  else (SRSRAN_ERROR, e).

(** Modelled from the spec: the failure handlers of the other procedures
    ([process_e2_node_config_update_failure],
    [process_ric_service_update_failure], [process_e2_removal_failure]):
    correlation against the Pending Procedure set, a stale message being
    dropped. *)
Definition process_failure (k : procedure_kind) (key : N) (e : e2ap) : Z * e2ap :=
  if is_pending k key e then (SRSRAN_SUCCESS, remove_pending k key e)
  else (SRSRAN_ERROR, e).

Definition process_e2_node_config_update_failure := process_failure node_config_update_procedure.
Definition process_ric_service_update_failure := process_failure service_update_procedure.
Definition process_e2_removal_failure := process_failure removal_procedure.

(** Modelled from the spec: [e2ap::generate_reset_request()], a reset this
    side starts. *)
Definition generate_reset_request (e : e2ap) : e2_ap_pdu_c * e2ap :=
  let id := next_transaction_id e in
  let p := {| kind := reset_procedure; correlation_key := id;
              created := clock e; deadline := clock e + procedure_timeout |} in
  (init_msg (reset_request {| reset_transaction_id := id |}),
   {| e2_established := e2_established e; pending := pending e ++ [p];
      subscriptions := subscriptions e; peer_assigned_id := peer_assigned_id e;
      next_transaction_id := id + 1; reset_id := reset_id e;
      clock := clock e; retry_at := retry_at e |}).

(** Modelled from the spec: [e2ap::process_reset_request]. A reset request
    clears all Subscription Records and Pending Procedures of the session
    and is never refused; the transaction is remembered for the reply. *)
Definition process_reset_request (r : reset_request_s) (e : e2ap) : Z * e2ap :=
  (SRSRAN_SUCCESS,
   {| e2_established := e2_established e; pending := [];
      subscriptions := ∅; peer_assigned_id := peer_assigned_id e;
      next_transaction_id := next_transaction_id e;
      reset_id := reset_transaction_id r;
      clock := clock e; retry_at := retry_at e |}).

Definition get_reset_id (e : e2ap) : N := reset_id e.

(** Modelled from the spec: [e2ap::generate_reset_response()], the reset
    acknowledgment for the transaction last received. *)
Definition generate_reset_response (e : e2ap) : e2_ap_pdu_c * e2ap :=
  (successful_outcome (reset_resp {| reset_resp_transaction_id := reset_id e |}), e).

(** Modelled from the spec: [e2ap::process_reset_response], correlated
    against the pending reset this side started. *)
Definition process_reset_response (r : reset_resp_s) (e : e2ap) : Z * e2ap :=
  process_failure reset_procedure (reset_resp_transaction_id r) e.

Definition subscription_key (id : ri_crequest_id_s) : N * N :=
  (ric_requestor_id id, ric_instance_id id).

(** Modelled from the spec: [e2ap::process_subscription_request]. A request
    that is admitted creates or updates the Subscription Record keyed by
    (requestor, instance) and hands back the grant with the admitted
    actions. A request that is refused leaves the records as they are (a
    record is created on successful handling only) and hands back the
    explicit refusal. Either way one reply is handed back for the agent to
    queue. *)
Definition process_subscription_request (r : ricsubscription_request_s) (e : e2ap)
  : Z * e2ap * list e2_ap_pdu_c :=
  let id := ri_crequest_id r in
  match admitted_actions r with
  | Some actions =>
      (SRSRAN_SUCCESS,
       set_subscriptions
         (<[subscription_key id :=
              {| requestor_id := ric_requestor_id id; instance_id := ric_instance_id id;
                 function_id := ra_nfunction_id r; granted_actions := actions |}]>
            (subscriptions e)) e,
       [successful_outcome (ricsubscription_resp
          {| resp_ri_crequest_id := id; resp_ra_nfunction_id := ra_nfunction_id r;
             ri_cactions_admitted := actions |})])
  | None =>
      (SRSRAN_SUCCESS, e,
       [unsuccessful_outcome (ricsubscription_fail
          {| fail_ri_crequest_id := id; fail_ra_nfunction_id := ra_nfunction_id r |})])
  end.

(** Modelled from the spec: [e2ap::process_subscription_delete_request]. The
    record is destroyed on deletion and the deletion acknowledged; a request
    for a subscription that does not exist is a protocol error. *)
Definition process_subscription_delete_request (r : ricsubscription_delete_request_s)
    (e : e2ap) : Z * e2ap * list e2_ap_pdu_c :=
  let key := subscription_key (del_ri_crequest_id r) in
  match subscriptions e !! key with
  | Some _ =>
      (SRSRAN_SUCCESS, set_subscriptions (delete key (subscriptions e)) e,
       [successful_outcome (ricsubscription_delete_resp (del_ri_crequest_id r))])
  | None => (SRSRAN_ERROR, e, [])
  end.

(** Modelled from the spec: what one tick of the timers does to the
    session. The clock advances by one unit; every Pending Procedure whose
    deadline has elapsed is removed; an expired setup takes the failure
    transition (retry after the backoff). *)
Definition timers_step (e : e2ap) : e2ap :=
  let now := clock e + 1 in
  let expired := filter (fun p => deadline p <= now) (pending e) in
  let alive := filter (fun p => ¬ deadline p <= now) (pending e) in
  {| e2_established := e2_established e; pending := alive;
     subscriptions := subscriptions e; peer_assigned_id := peer_assigned_id e;
     next_transaction_id := next_transaction_id e; reset_id := reset_id e;
     clock := now;
     retry_at := if bool_decide (Exists (fun p => kind p = setup_procedure) expired)
                 then now + retry_backoff else retry_at e |}.

End e2ap_procedures.

(** *** The agent *)

(** Modelled from the spec: [srsran::unique_socket], the type of
    [ric_socket], which is not part of the sources at hand: the connection
    handle, a file descriptor that is negative when the socket is not
    open. *)
Record unique_socket : Type := { sockfd : Z }.

Definition is_open (sock : unique_socket) : bool := (0 <=? sockfd sock)%Z.

(** Modelled from the spec: [unique_socket::close()], which is not part of
    the sources at hand. Closing releases the descriptor; closing an
    endpoint that is already closed is a no-op. *)
Definition close (sock : unique_socket) : unique_socket :=
  if is_open sock then {| sockfd := (-1)%Z |} else sock.

(** Where a line of output goes: [printf], or a level of [logger]. *)
Inductive log_sink : Type :=
| stdout
| log_error
| log_warning
| log_info.

(** The closures pushed on [ric_rece_task_queue]. *)
Inductive task : Type :=
| rx_task (pdu : byte_buffer)
| send_reset_resp
| send_e2ap_pdu_task (e2ap_pdu : e2_ap_pdu_c).

(** How a call of [send_e2ap_pdu] ended. *)
Inductive send_outcome : Type :=
| no_buffer
| pack_failed
| sctp_failed
| sctp_sent.

#[global] Instance send_outcome_eq_dec : EqDecision send_outcome.
Proof. solve_decision. Defined.

(** One call of [send_e2ap_pdu]: the PDU handed over and the outcome. *)
Record tx_record : Type := {
  tx_pdu : e2_ap_pdu_c;
  tx_outcome : send_outcome
}.

(** Where the thread of [run_thread] stands: not started, about to test
    [while (running)], about to call [run_next_task()], or returned. *)
Inductive thread_pc : Type :=
| thread_not_started
| at_while
| at_run_next_task
| thread_finished.

#[global] Instance thread_pc_eq_dec : EqDecision thread_pc.
Proof. solve_decision. Defined.

(** [class e2_agent]: its members, the lines written so far, the history of
    sends, and the position of its thread. *)
Record e2_agent : Type := {
  running : bool;
  ric_socket : unique_socket;
  e2ap_ : e2ap;
  ric_rece_task_queue : list task;
  logger : list (log_sink * string);
  tx : list tx_record;
  thread : thread_pc
}.

Definition set_running (b : bool) (s : e2_agent) : e2_agent :=
  {| running := b; ric_socket := ric_socket s; e2ap_ := e2ap_ s;
     ric_rece_task_queue := ric_rece_task_queue s; logger := logger s;
     tx := tx s; thread := thread s |}.

Definition set_ric_socket (sock : unique_socket) (s : e2_agent) : e2_agent :=
  {| running := running s; ric_socket := sock; e2ap_ := e2ap_ s;
     ric_rece_task_queue := ric_rece_task_queue s; logger := logger s;
     tx := tx s; thread := thread s |}.

Definition set_e2ap (e : e2ap) (s : e2_agent) : e2_agent :=
  {| running := running s; ric_socket := ric_socket s; e2ap_ := e;
     ric_rece_task_queue := ric_rece_task_queue s; logger := logger s;
     tx := tx s; thread := thread s |}.

Definition set_task_queue (q : list task) (s : e2_agent) : e2_agent :=
  {| running := running s; ric_socket := ric_socket s; e2ap_ := e2ap_ s;
     ric_rece_task_queue := q; logger := logger s;
     tx := tx s; thread := thread s |}.

Definition set_logger (l : list (log_sink * string)) (s : e2_agent) : e2_agent :=
  {| running := running s; ric_socket := ric_socket s; e2ap_ := e2ap_ s;
     ric_rece_task_queue := ric_rece_task_queue s; logger := l;
     tx := tx s; thread := thread s |}.

Definition set_tx (l : list tx_record) (s : e2_agent) : e2_agent :=
  {| running := running s; ric_socket := ric_socket s; e2ap_ := e2ap_ s;
     ric_rece_task_queue := ric_rece_task_queue s; logger := logger s;
     tx := l; thread := thread s |}.

Definition set_thread (pc : thread_pc) (s : e2_agent) : e2_agent :=
  {| running := running s; ric_socket := ric_socket s; e2ap_ := e2ap_ s;
     ric_rece_task_queue := ric_rece_task_queue s; logger := logger s;
     tx := tx s; thread := pc |}.

(** The agent as its constructor leaves it. *)
Definition e2_agent_new : e2_agent :=
  {| running := false; ric_socket := {| sockfd := (-1)%Z |}; e2ap_ := e2ap_init;
     ric_rece_task_queue := []; logger := []; tx := []; thread := thread_not_started |}.

(** Member functions read and write the agent: a state monad over it. *)
Definition M (A : Type) : Type := e2_agent -> A * e2_agent.

#[global] Instance M_ret : MRet M := fun A a s => (a, s).
#[global] Instance M_bind : MBind M :=
  fun A B f m s => let '(a, s') := m s in f a s'.

Definition modify (f : e2_agent -> e2_agent) : M unit := fun s => (tt, f s).
Definition gets {A : Type} (f : e2_agent -> A) : M A := fun s => (f s, s).

(** [printf(...)] and [logger.error/warning/info(...)]; the text is the
    format string of the source. *)
Definition log (sink : log_sink) (text : string) : M unit :=
  modify (fun s => set_logger (logger s ++ [(sink, text)]) s).

(** [ric_rece_task_queue.push(t)]. *)
Definition push (t : task) : M unit :=
  modify (fun s => set_task_queue (ric_rece_task_queue s ++ [t]) s).

(** A call into [e2ap_]. *)
Definition call_e2ap {A : Type} (f : e2ap -> A * e2ap) : M A :=
  fun s => let '(a, e) := f (e2ap_ s) in (a, set_e2ap e s).

Definition record_tx (pdu : e2_ap_pdu_c) (o : send_outcome) : M unit :=
  modify (fun s => set_tx (tx s ++ [{| tx_pdu := pdu; tx_outcome := o |}]) s).

(** An integer or pointer used as a condition. *)
Definition truthy (rc : Z) : bool := negb (rc =? 0)%Z.

Section agent.

Context `{environment}.

(** [e2_agent::init]. *)
Definition init : M bool :=
  log stdout "E2_AGENT: Init\n";;
  match open_socket with
  | None => mret false
  | Some fd =>
      modify (set_ric_socket {| sockfd := fd |});;
      log stdout "RIC SCTP socket opened. fd=%d\n";;
      if negb sctp_subscribe_to_events then
        modify (fun s => set_ric_socket (close (ric_socket s)) s);;
        mret false
      else if negb bind_addr then
        modify (fun s => set_ric_socket (close (ric_socket s)) s);;
        mret false
      else if negb connect_to then mret false
      else
        modify (set_task_queue []);;
        log stdout "SCTP socket connected with RIC. fd=%d \n";;
        modify (set_running true);;
        modify (set_thread at_while);;
        mret (truthy SRSRAN_SUCCESS)
  end.

(** [e2_agent::tic]: [task_sched.tic()], the tick that advances the timers.
    The tasks of [ric_rece_task_queue] are left to [run_next_task()], in
    the agent's thread. *)
Definition tic : M unit :=
  call_e2ap (fun e => (tt, timers_step e)).

(** How the [n]-th send ends, for a given PDU: it is the buffer pool, then
    the codec, then the socket that decide. *)
Definition send_outcome_of (n : nat) (send_pdu : e2_ap_pdu_c) : send_outcome :=
  if negb (make_byte_buffer n) then no_buffer
  else match pack send_pdu with
       | None => pack_failed
       | Some buf => if sctp_sendmsg n buf then sctp_sent else sctp_failed
       end.

(** [e2_agent::send_sctp], called for the [n]-th send. *)
Definition send_sctp (n : nat) (pdu : e2_ap_pdu_c) (buf : byte_buffer) : M bool :=
  if negb (sctp_sendmsg n buf) then
    log stdout "failed to send %d bytes\n";;
    record_tx pdu sctp_failed;;
    mret false
  else
    record_tx pdu sctp_sent;;
    mret true.

(** [e2_agent::send_e2ap_pdu]. *)
Definition send_e2ap_pdu (send_pdu : e2_ap_pdu_c) : M bool :=
  n ← gets (fun s => length (tx s));
  if negb (make_byte_buffer n) then
    record_tx send_pdu no_buffer;;
    mret false
  else
    match pack send_pdu with
    | None =>
        log log_error "Failed to pack TX E2 PDU";;
        record_tx send_pdu pack_failed;;
        mret false
    | Some buf =>
        log stdout "try to send %d bytes to addr %s \n";;
        sent ← send_sctp n send_pdu buf;
        if negb sent then
          log log_error "failed to send";;
          mret false
        else mret true
    end.

(** [e2_agent::send_e2_msg]. *)
Definition send_e2_msg (msg_type : e2_msg_type_t) : M bool :=
  match msg_type with
  | E2_SETUP_REQUEST =>
      send_pdu ← call_e2ap generate_setup_request;
      send_e2ap_pdu send_pdu
  | E2_RESET =>
      send_pdu ← call_e2ap generate_reset_request;
      send_e2ap_pdu send_pdu
  | E2_RESET_RESPONSE =>
      send_pdu ← call_e2ap generate_reset_response;
      send_e2ap_pdu send_pdu
  | E2_other_msg_type _ =>
      log stdout "Unknown E2AP message type\n";;
      mret false
  end.

(** [e2_agent::queue_send_e2ap_pdu]. *)
Definition queue_send_e2ap_pdu (e2ap_pdu : e2_ap_pdu_c) : M bool :=
  push (send_e2ap_pdu_task e2ap_pdu);;
  mret true.

(** A call into [e2ap_] that hands PDUs back through
    [queue_send_e2ap_pdu]. *)
Definition call_e2ap_queueing (f : e2ap -> Z * e2ap * list e2_ap_pdu_c) : M Z :=
  '(rc, pdus) ← call_e2ap (fun e => let '(rc, e', pdus) := f e in ((rc, pdus), e'));
  foldr (fun pdu k => queue_send_e2ap_pdu pdu;; k) (mret rc) pdus.

(** [e2_agent::handle_ric_subscription_request]. *)
Definition handle_ric_subscription_request (ric_subscription_request : ricsubscription_request_s)
  : M bool :=
  log log_info "Received RIC Subscription Request from RIC ID: %i (instance id %i) to RAN Function ID: %i";;
  rc ← call_e2ap_queueing (process_subscription_request ric_subscription_request);
  if truthy rc then
    log log_error "Failed to process RIC subscription request \n";;
    mret false
  else mret true.

(** [e2_agent::handle_ric_subscription_delete_request]. *)
Definition handle_ric_subscription_delete_request
    (ricsubscription_delete_request : ricsubscription_delete_request_s) : M bool :=
  log log_info "Received RIC Subscription Delete request from RIC ID: %i (instance id %i) to RAN Function ID: %i";;
  rc ← call_e2ap_queueing (process_subscription_delete_request ricsubscription_delete_request);
  if truthy rc then
    log log_error "Failed to process RIC subscription delete request \n";;
    mret false
  else mret true.

(** [e2_agent::handle_reset_request]. *)
Definition handle_reset_request (reset_request : reset_request_s) : M bool :=
  log stdout "Received E2AP E2 Reset Request \n";;
  rc ← call_e2ap (process_reset_request reset_request);
  if truthy rc then
    log log_error "Failed to process E2 Reset Request \n";;
    mret false
  else
    _ ← gets (fun s => get_reset_id (e2ap_ s));
    log log_info "Reset transaction with ID = {}";;
    push send_reset_resp;;
    mret true.

(** [e2_agent::handle_reset_response]. *)
Definition handle_reset_response (reset_response : reset_resp_s) : M bool :=
  log stdout "Received E2AP E2 Reset Response \n";;
  rc ← call_e2ap (process_reset_response reset_response);
  if truthy rc then
    log log_error "Failed to process E2 Reset Response \n";;
    mret false
  else
    log log_info "Reset Response successfully processed \n";;
    mret true.

(** [e2_agent::handle_e2_setup_response]. *)
Definition handle_e2_setup_response (setup_response : e2setup_resp_s) : M bool :=
  rc ← call_e2ap (process_setup_response setup_response);
  if truthy rc then
    log log_error "Failed to process E2 Setup Response \n";;
    mret false
  else mret true.

(** [e2_agent::handle_e2_init_msg]: the chain of tests on
    [init_msg.value.type()]. *)
Definition handle_e2_init_msg (value : init_msg_c) : M bool :=
  match value with
  | ricsubscription_request r =>
      log log_info "Received E2AP RIC Subscription Request";;
      handle_ric_subscription_request r;;
      mret true
  | ricsubscription_delete_request r =>
      log log_info "Received E2AP RIC Subscription Delete Request";;
      handle_ric_subscription_delete_request r;;
      mret true
  | ri_cctrl_request =>
      log log_info "Received E2AP RIC Control Request";;
      mret true
  | e2conn_upd =>
      log log_info "Received E2AP E2 Connection Update";;
      mret true
  | reset_request r =>
      log log_info "Received E2AP E2 Reset Request";;
      handle_reset_request r;;
      mret true
  | e2_removal_request =>
      log log_info "Received E2AP E2 Removal Request";;
      mret true
  | e2setup_request _ | init_msg_other _ =>
      log log_warning "Received E2AP Unknown Init Message ";;
      mret true
  end.

(** [e2_agent::handle_e2_successful_outcome]. *)
Definition handle_e2_successful_outcome (value : successful_outcome_c) : M bool :=
  match value with
  | e2setup_resp r =>
      log log_info "Received E2AP E2 Setup Response";;
      handle_e2_setup_response r;;
      mret true
  | ricsubscription_resp _ =>
      log log_info "Received E2AP RIC Subscription Response";;
      mret true
  | ri_cctrl_ack =>
      log log_info "Received E2AP RIC Control acknowlegement  \n";;
      mret true
  | ricservice_upd_ack =>
      log log_info "Received E2AP RIC Service Update acknowlegement \n";;
      mret true
  | ricsubscription_delete_resp _ =>
      log log_info "Received E2AP RIC Subscription Delete Response \n";;
      mret true
  | reset_resp r =>
      log log_info "Received E2AP RIC Reset Response \n";;
      handle_reset_response r;;
      mret true
  | successful_outcome_other _ =>
      log log_info "Received E2AP Unknown Successful Outcome \n";;
      mret true
  end.

(** The common shape of the branches of
    [handle_e2_unsuccessful_outcome]: log, call [e2ap_], and leave with
    [false] when the call fails. *)
Definition process_or_fail (received : string) (f : e2ap -> Z * e2ap) (failed : string)
  : M bool :=
  log log_info received;;
  rc ← call_e2ap f;
  if truthy rc then
    log log_error failed;;
    mret false
  else mret true.

(** [e2_agent::handle_e2_unsuccessful_outcome]. *)
Definition handle_e2_unsuccessful_outcome (value : unsuccessful_outcome_c) : M bool :=
  match value with
  | e2setup_fail r =>
      process_or_fail "Received E2AP E2 Setup Failure"
        (process_e2_setup_failure r) "Failed to process E2 Setup Failure \n"
  | e2node_cfg_upd_fail id =>
      process_or_fail "Received E2node configuration update Failure"
        (process_e2_node_config_update_failure id)
        "Failed to process E2node configuration update Failure \n"
  | ricservice_upd_fail id =>
      process_or_fail "Received E2AP RIC Service Update Failure \n"
        (process_ric_service_update_failure id)
        "Failed to process RIC service update failure \n"
  | e2_removal_fail id =>
      process_or_fail "Received E2AP removal Unsuccessful Outcome \n"
        (process_e2_removal_failure id)
        "Failed to process RIC service status failure \n"
  | ricsubscription_fail _ | unsuccessful_outcome_other _ =>
      log log_info "Received E2AP Unknown Unsuccessful Outcome \n";;
      mret true
  end.

(** [e2_agent::handle_e2_rx_msg]. *)
Definition handle_e2_rx_msg (pdu : byte_buffer) : M bool :=
  log stdout "E2_AGENT: Received %d bytes from %s\n";;
  match unpack pdu with
  | None =>
      log log_error "Failed to unpack RX E2 PDU";;
      mret false
  | Some pdu_c =>
      match pdu_c with
      | init_msg value =>
          log log_info "Received E2AP Init Message";;
          handle_e2_init_msg value;;
          mret true
      | successful_outcome value =>
          log log_info "Received E2AP Successful Outcome";;
          handle_e2_successful_outcome value;;
          mret true
      | unsuccessful_outcome value =>
          log log_info "Received E2AP Unsuccessful Outcome ";;
          handle_e2_unsuccessful_outcome value;;
          mret true
      | nulltype =>
          log log_warning "Received E2AP Unknown Message ";;
          mret true
      end
  end.

(** What a task does when the scheduler runs it. *)
Definition run_task (t : task) : M unit :=
  match t with
  | rx_task pdu => handle_e2_rx_msg pdu;; mret tt
  | send_reset_resp => send_e2_msg E2_RESET_RESPONSE;; mret tt
  | send_e2ap_pdu_task e2ap_pdu => send_e2ap_pdu e2ap_pdu;; mret tt
  end.

(** The body of the loop of [e2_agent::run_thread], up to the call of
    [run_next_task()]. *)
Definition run_thread_body : M unit :=
  due ← gets (fun s => send_setup_request (e2ap_ s));
  if due : bool then
    send_e2_msg E2_SETUP_REQUEST;;
    log stdout "e2 setup request sent\n"
  else mret tt.

(** Modelled from the spec: [task_sched.run_next_task()], of the scheduler,
    which is not part of the sources at hand. It executes and removes
    exactly one queued task, the oldest; the call blocks while the queue is
    empty, which is no result here. *)
Definition run_next_task (s : e2_agent) : option e2_agent :=
  match ric_rece_task_queue s with
  | [] => None
  | t :: q => Some (run_task t (set_task_queue q s)).2
  end.

(** One step of the thread of [e2_agent::run_thread]: the test of
    [while (running)] with the body up to [run_next_task()], or
    [run_next_task()] itself. There is no step while that call blocks,
    before the thread is started and after it has returned. *)
Definition thread_step (s : e2_agent) : option e2_agent :=
  match thread s with
  | at_while =>
      if running s then Some (set_thread at_run_next_task (run_thread_body s).2)
      else Some (set_thread thread_finished s)
  | at_run_next_task => set_thread at_while <$> run_next_task s
  | thread_not_started | thread_finished => None
  end.

(** [run_thread] until it returns, by at most [fuel] steps. *)
Fixpoint run_thread (fuel : nat) (s : e2_agent) : option e2_agent :=
  if bool_decide (thread s = thread_finished) then Some s
  else match fuel with
       | O => None
       | S fuel' => thread_step s ≫= run_thread fuel'
       end.

(** Modelled from the spec: [srsran::thread::wait_thread_finish()], which is
    not part of the sources at hand. It returns once [run_thread] has
    returned, and at once when there is no thread to wait for. *)
Definition wait_thread_finish (fuel : nat) (s : e2_agent) : option e2_agent :=
  match thread s with
  | thread_not_started => Some s
  | _ => run_thread fuel s
  end.

(** [e2_agent::stop]. No result while the thread does not return. *)
Definition stop (fuel : nat) (s : e2_agent) : option e2_agent :=
  wait_thread_finish fuel (set_running false s).

(** The outbound operations of the agent: the PDUs [send_e2ap_pdu] has
    been called with, oldest first. *)
Definition emitted (s : e2_agent) : list e2_ap_pdu_c := map tx_pdu (tx s).

Definition is_setup_request (pdu : e2_ap_pdu_c) : bool :=
  match pdu with
  | init_msg (e2setup_request _) => true
  | _ => false
  end.

Definition is_reset_response (pdu : e2_ap_pdu_c) : bool :=
  match pdu with
  | successful_outcome (reset_resp _) => true
  | _ => false
  end.

Definition is_subscription_reply (pdu : e2_ap_pdu_c) : bool :=
  match pdu with
  | successful_outcome (ricsubscription_resp _) => true
  | unsuccessful_outcome (ricsubscription_fail _) => true
  | _ => false
  end.

(** The lifecycle state of the Session, read off the agent: Disconnected
    without an open transport, Established once the setup has succeeded,
    AwaitingSetupResponse while a setup is pending, Connecting otherwise. *)
Inductive session_state : Type :=
| Disconnected
| Connecting
| AwaitingSetupResponse
| Established.

Definition lifecycle (s : e2_agent) : session_state :=
  if negb (is_open (ric_socket s)) then Disconnected
  else if e2_established (e2ap_ s) then Established
  else if has_pending setup_procedure (e2ap_ s) then AwaitingSetupResponse
  else Connecting.

(** The events of an execution: a step of the agent's thread; the arrival
    of bytes from the peer, which the socket handler registered by [init]
    pushes on the task queue as the task that will decode and dispatch
    them; a timer tick; and the write of [running] that [stop] starts
    with. *)
Inductive step : e2_agent -> e2_agent -> Prop :=
| step_thread s s' :
    thread_step s = Some s' -> step s s'
| step_rx s pdu :
    step s (push (rx_task pdu) s).2
| step_tic s :
    step s (tic s).2
| step_stop s :
    step s (set_running false s).

(** The states an agent goes through once [init] has been called on a new
    agent. *)
Definition reachable (s : e2_agent) : Prop := rtc step (init e2_agent_new).2 s.

(** What a member function may do to the agent: [running], the socket and
    the thread are left alone, [e2ap_] becomes [e'], the task queue grows by
    [q] and the history of sends by [t]. *)
Definition effect (s s' : e2_agent) (e' : e2ap) (q : list task) (t : list tx_record) : Prop :=
  running s' = running s ∧ ric_socket s' = ric_socket s ∧ thread s' = thread s
  ∧ e2ap_ s' = e' ∧ ric_rece_task_queue s' = ric_rece_task_queue s ++ q
  ∧ tx s' = tx s ++ t.

(** Two states of the agent that differ in the lines written at most. *)
Definition same_but_log (s s' : e2_agent) : Prop :=
  set_logger [] s = set_logger [] s'.

(** A queued task that does not send a Setup Request. *)
Definition benign_task (t : task) : Prop :=
  match t with
  | send_e2ap_pdu_task pdu => is_setup_request pdu = false
  | rx_task _ | send_reset_resp => True
  end.

(** What the dispatch of a decoded message asks of the session: the state
    [e2ap_] is left in and the tasks that get queued. *)
Definition session_rx (pdu_c : e2_ap_pdu_c) (e : e2ap) : e2ap * list task :=
  match pdu_c with
  | init_msg (ricsubscription_request r) =>
      ((process_subscription_request r e).1.2,
       map send_e2ap_pdu_task (process_subscription_request r e).2)
  | init_msg (ricsubscription_delete_request r) =>
      ((process_subscription_delete_request r e).1.2,
       map send_e2ap_pdu_task (process_subscription_delete_request r e).2)
  | init_msg (reset_request r) => ((process_reset_request r e).2, [send_reset_resp])
  | successful_outcome (e2setup_resp r) => ((process_setup_response r e).2, [])
  | successful_outcome (reset_resp r) => ((process_reset_response r e).2, [])
  | unsuccessful_outcome (e2setup_fail r) => ((process_e2_setup_failure r e).2, [])
  | unsuccessful_outcome (e2node_cfg_upd_fail id) =>
      ((process_e2_node_config_update_failure id e).2, [])
  | unsuccessful_outcome (ricservice_upd_fail id) =>
      ((process_ric_service_update_failure id e).2, [])
  | unsuccessful_outcome (e2_removal_fail id) => ((process_e2_removal_failure id e).2, [])
  | _ => (e, [])
  end.

(** The first outbound operation, if there is one, is a Setup Request. *)
Definition first_is_setup_request (l : list e2_ap_pdu_c) : Prop :=
  match l with
  | [] => True
  | pdu :: _ => is_setup_request pdu = true
  end.

(** The session a new agent starts with, as far as the guard of the run
    loop reads it. *)
Definition fresh (e : e2ap) : Prop :=
  e2_established e = false ∧ pending e = [] ∧ retry_at e <= clock e.

(** What holds of every state an agent goes through. *)
Definition invariant (s : e2_agent) : Prop :=
  (pending_setups (e2ap_ s) <= 1)%nat
  ∧ Forall benign_task (ric_rece_task_queue s)
  ∧ (tx s = [] -> thread s ≠ at_run_next_task ∧ fresh (e2ap_ s))
  ∧ first_is_setup_request (emitted s).

(** The dispatcher's contract: the handler a decoded message is routed to,
    by envelope kind and then by procedure; [None] for a message that has
    no handler (unknown or unimplemented), which is dropped. *)
Definition route (pdu_c : e2_ap_pdu_c) : option (M bool) :=
  match pdu_c with
  | init_msg (ricsubscription_request r) => Some (handle_ric_subscription_request r)
  | init_msg (ricsubscription_delete_request r) => Some (handle_ric_subscription_delete_request r)
  | init_msg (reset_request r) => Some (handle_reset_request r)
  | successful_outcome (e2setup_resp r) => Some (handle_e2_setup_response r)
  | successful_outcome (reset_resp r) => Some (handle_reset_response r)
  | unsuccessful_outcome (e2setup_fail r) =>
      Some (rc ← call_e2ap (process_e2_setup_failure r); mret (negb (truthy rc)))
  | unsuccessful_outcome (e2node_cfg_upd_fail id) =>
      Some (rc ← call_e2ap (process_e2_node_config_update_failure id); mret (negb (truthy rc)))
  | unsuccessful_outcome (ricservice_upd_fail id) =>
      Some (rc ← call_e2ap (process_ric_service_update_failure id); mret (negb (truthy rc)))
  | unsuccessful_outcome (e2_removal_fail id) =>
      Some (rc ← call_e2ap (process_e2_removal_failure id); mret (negb (truthy rc)))
  | _ => None
  end.

(** The PDUs the socket took: the outbound operations that ended in a
    successful [sctp_sendmsg], oldest first. *)
Definition on_wire (s : e2_agent) : list e2_ap_pdu_c :=
  map tx_pdu (filter (fun r => tx_outcome r = sctp_sent) (tx s)).

(** The events of an execution in which the agent is not stopped: a step
    of the thread, the arrival of bytes, a timer tick. *)
Inductive event : Type :=
| thread_runs
| bytes_arrive (pdu : byte_buffer)
| timer_ticks.

Definition is_thread_event (ev : event) : bool :=
  match ev with
  | thread_runs => true
  | bytes_arrive _ | timer_ticks => false
  end.

(** The state an event leaves; none for a step of a thread that is
    blocked, not started or returned. *)
Definition run_event (ev : event) (s : e2_agent) : option e2_agent :=
  match ev with
  | thread_runs => thread_step s
  | bytes_arrive pdu => Some (push (rx_task pdu) s).2
  | timer_ticks => Some (tic s).2
  end.

Fixpoint run_events (evs : list event) (s : e2_agent) : option e2_agent :=
  match evs with
  | [] => Some s
  | ev :: evs' => run_event ev s ≫= run_events evs'
  end.

(** The number of steps the thread takes in a run. *)
Definition thread_events (evs : list event) : nat :=
  length (filter (fun ev => is_thread_event ev = true) evs).

(** The steps the thread takes before it is about to run a task that has
    [ahead] tasks before it in the queue: two for each of them (the task,
    then the head of the loop), and one more when the thread stands at
    [while (running)]. *)
Definition steps_to_turn (ahead : nat) (s : e2_agent) : nat :=
  2 * ahead + (if bool_decide (thread s = at_while) then 1 else 0).

(** The number of elements of a list that pass a test. *)
Definition count_if {A : Type} (f : A -> bool) (l : list A) : nat :=
  length (filter (fun x => f x = true) l).

(** A task that makes an outbound operation with a Reset Response when it
    runs. *)
Definition sends_reset_response (t : task) : bool :=
  match t with
  | send_reset_resp => true
  | send_e2ap_pdu_task e2ap_pdu => is_reset_response e2ap_pdu
  | rx_task _ => false
  end.

(** A task that makes an outbound operation with the reply to a
    Subscription Request when it runs. *)
Definition sends_subscription_reply (t : task) : bool :=
  match t with
  | send_e2ap_pdu_task e2ap_pdu => is_subscription_reply e2ap_pdu
  | send_reset_resp | rx_task _ => false
  end.

(** The Reset Responses accounted for: the outbound operations made with
    one, and the queued tasks that are to make one. *)
Definition reset_responses (s : e2_agent) : nat :=
  (count_if is_reset_response (emitted s)
   + count_if sends_reset_response (ric_rece_task_queue s))%nat.

(** The replies to Subscription Requests accounted for, likewise. *)
Definition subscription_replies (s : e2_agent) : nat :=
  (count_if is_subscription_reply (emitted s)
   + count_if sends_subscription_reply (ric_rece_task_queue s))%nat.

(** The decoded message the next step of the thread handles, when that
    step runs the task of received bytes that decode. *)
Definition handles (s : e2_agent) : option e2_ap_pdu_c :=
  match thread s, ric_rece_task_queue s with
  | at_run_next_task, rx_task pdu :: _ => unpack pdu
  | _, _ => None
  end.

Definition is_reset_request (pdu : e2_ap_pdu_c) : bool :=
  match pdu with
  | init_msg (reset_request _) => true
  | _ => false
  end.

Definition is_subscription_request (pdu : e2_ap_pdu_c) : bool :=
  match pdu with
  | init_msg (ricsubscription_request _) => true
  | _ => false
  end.

(** Whether the next step of the thread handles a message of a kind. *)
Definition handles_a (k : e2_ap_pdu_c -> bool) (s : e2_agent) : bool :=
  from_option k false (handles s).

(** A decoded message that ends a Pending Setup Procedure of the session:
    the Setup Response or the Setup Failure that correlates with it, and a
    Reset Request of the peer, which clears every Pending Procedure. *)
Definition ends_setup (pdu_c : e2_ap_pdu_c) (e : e2ap) : bool :=
  match pdu_c with
  | successful_outcome (e2setup_resp r) =>
      is_pending setup_procedure (setup_resp_transaction_id r) e
  | unsuccessful_outcome (e2setup_fail r) =>
      is_pending setup_procedure (setup_fail_transaction_id r) e
  | init_msg (reset_request _) => true
  | _ => false
  end.

(** A Pending Setup Procedure expires at the next tick. *)
Definition setup_expires (e : e2ap) : bool :=
  bool_decide (Exists (fun p => kind p = setup_procedure ∧ deadline p <= clock e + 1)
                 (pending e)).

End agent.

(** *** An environment to run the agent in

    Every socket call of [init] succeeds, buffers are always at hand, every
    send goes through, and the codec knows four one-byte messages: a Reset
    Request, a Subscription Request of requestor 3, instance 1, the Setup
    Response to transaction 0 that assigns the identifier 7, and a Control
    Request, which the agent has no handler for. *)

Definition example_unpack (buf : byte_buffer) : option e2_ap_pdu_c :=
  match buf with
  | [Byte.x01] => Some (init_msg (reset_request {| reset_transaction_id := 5 |}))
  | [Byte.x02] =>
      Some (init_msg (ricsubscription_request
        {| ri_crequest_id := {| ric_requestor_id := 3; ric_instance_id := 1 |};
           ra_nfunction_id := 147; ricsubscription_details := [1; 2] |}))
  | [Byte.x03] =>
      Some (successful_outcome (e2setup_resp
        {| setup_resp_transaction_id := 0; global_ric_id := 7 |}))
  | [Byte.x04] => Some (init_msg ri_cctrl_request)
  | _ => None
  end.

Definition example_environment : environment :=
  {| unpack := example_unpack;
     pack := fun _ => Some [];
     make_byte_buffer := fun _ => true;
     sctp_sendmsg := fun _ _ => true;
     open_socket := Some 3%Z;
     sctp_subscribe_to_events := true;
     bind_addr := true;
     connect_to := true;
     admitted_actions := fun r => Some (ricsubscription_details r);
     procedure_timeout := 1000;
     retry_backoff := 100 |}.

(** The agent once [init] has returned, in that environment. *)
Definition example_started : e2_agent := (@init example_environment e2_agent_new).2.

(** The same agent with its Setup Request sent and answered, and the
    thread ahead of [run_next_task()] again. *)
Definition example_established : e2_agent :=
  let s1 := default example_started (@thread_step example_environment example_started) in
  let s2 := (push (rx_task [Byte.x03]) s1).2 in
  let s3 := default s2 (@thread_step example_environment s2) in
  default s3 (@thread_step example_environment s3).

(** An environment whose buffer pool is empty for the first send only. *)
Definition example_environment_no_buffer : environment :=
  {| unpack := example_unpack;
     pack := fun _ => Some [];
     make_byte_buffer := fun n => negb (Nat.eqb n 0);
     sctp_sendmsg := fun _ _ => true;
     open_socket := Some 3%Z;
     sctp_subscribe_to_events := true;
     bind_addr := true;
     connect_to := true;
     admitted_actions := fun r => Some (ricsubscription_details r);
     procedure_timeout := 1000;
     retry_backoff := 100 |}.

(** An environment in which every Subscription Request is refused. *)
Definition example_environment_refusing : environment :=
  {| unpack := example_unpack;
     pack := fun _ => Some [];
     make_byte_buffer := fun _ => true;
     sctp_sendmsg := fun _ _ => true;
     open_socket := Some 3%Z;
     sctp_subscribe_to_events := true;
     bind_addr := true;
     connect_to := true;
     admitted_actions := fun _ => None;
     procedure_timeout := 1000;
     retry_backoff := 100 |}.

End e2.

(** ** Properties of the choice type *)

Module choice_facts.
Import choice_details choice_t.

(** The index of a member is a position of the pack. *)
Lemma type_indexer_member T Types :
  T ∈ Types -> (0 <= type_indexer T Types < sizeof_pack Types)%Z.
Proof.
  induction Types as [|First Types' IH]; intros Hin.
  - by apply elem_of_nil in Hin.
  - cbn [type_indexer]. case_bool_decide as Heq.
    + unfold sizeof_pack. cbn [length]. lia.
    + apply elem_of_cons in Hin as [->|Hin]; [done|].
      specialize (IH Hin). unfold sizeof_pack in *. cbn [length]. lia.
Qed.

Lemma type_indexer_not_member T Types :
  T ∉ Types -> type_indexer T Types = invalid_idx.
Proof.
  induction Types as [|First Types' IH]; intros Hnin; [done|].
  cbn [type_indexer]. apply not_elem_of_cons in Hnin as [Hne Hnin].
  rewrite bool_decide_eq_false_2 by done. by apply IH.
Qed.

(** [type_get] undoes [type_indexer] on every member of the pack. *)
Lemma type_get_type_indexer_member T Types :
  T ∈ Types -> type_get (type_indexer T Types) Types = T.
Proof.
  induction Types as [|First Types' IH]; intros Hin.
  - by apply elem_of_nil in Hin.
  - cbn [type_indexer type_get]. case_bool_decide as Heq.
    + by rewrite Z.eqb_refl.
    + apply elem_of_cons in Hin as [->|Hin]; [done|].
      pose proof (type_indexer_member _ _ Hin) as Hb.
      destruct (Z.eqb_spec (type_indexer T Types') (sizeof_pack Types')); [lia|].
      by apply IH.
Qed.

Lemma type_indexer_inj A B Types :
  A ∈ Types -> B ∈ Types -> type_indexer A Types = type_indexer B Types -> A = B.
Proof.
  intros HA HB Heq.
  rewrite <- (type_get_type_indexer_member A Types HA).
  rewrite <- (type_get_type_indexer_member B Types HB).
  by rewrite Heq.
Qed.

(** [type_get] at a position of the pack is a member of it. *)
Lemma type_get_member I Types :
  (0 <= I < sizeof_pack Types)%Z -> type_get I Types ∈ Types.
Proof.
  induction Types as [|First Types' IH]; unfold sizeof_pack; cbn [length]; intros HI; [lia|].
  cbn [type_get]. fold (sizeof_pack Types').
  destruct (Z.eqb_spec I (sizeof_pack Types')).
  - apply elem_of_cons; by left.
  - apply elem_of_cons; right. apply IH. unfold sizeof_pack in *. lia.
Qed.

(** [type_indexer] undoes [type_get] when no type is listed twice. *)
Lemma type_indexer_type_get I Types :
  NoDup Types -> (0 <= I < sizeof_pack Types)%Z ->
  type_indexer (type_get I Types) Types = I.
Proof.
  induction Types as [|First Types' IH]; unfold sizeof_pack; cbn [length];
    intros Hnd HI; [lia|].
  apply NoDup_cons in Hnd as [Hfresh Hnd].
  cbn [type_get]. fold (sizeof_pack Types').
  destruct (Z.eqb_spec I (sizeof_pack Types')) as [->|Hne].
  - cbn [type_indexer]. by rewrite bool_decide_eq_true_2.
  - assert (0 <= I < sizeof_pack Types')%Z as HI' by (unfold sizeof_pack in *; lia).
    cbn [type_indexer]. rewrite bool_decide_eq_false_2; [by apply IH|].
    intros Heq. apply Hfresh. rewrite <- Heq. by apply type_get_member.
Qed.

Lemma filter_eq_member (T : cpp_type) Types :
  length (filter (T =.) Types) = 1%nat -> T ∈ Types.
Proof.
  intros Hlen. destruct (filter (T =.) Types) as [|X l] eqn:Hf; [done|].
  assert (X ∈ filter (T =.) Types) as HX by (rewrite Hf; apply elem_of_cons; by left).
  apply list_elem_of_filter in HX as [<- HX]. done.
Qed.

(** C10. The two compile-time lookups are inverse to each other on the type
    list: for a type [T] that occurs exactly once in [Args], [type_get] at
    the index [type_indexer] gives for [T] is [T] again; for a type that
    does not occur in [Args], the index is [invalid_idx]. *)
Theorem type_get_type_indexer (T : cpp_type) (Args : list cpp_type) :
  (length (filter (T =.) Args) = 1%nat -> type_get (type_indexer T Args) Args = T)
  ∧ (T ∉ Args -> type_indexer T Args = invalid_idx).
Proof.
  split.
  - intros Hone. apply type_get_type_indexer_member. by apply filter_eq_member.
  - apply type_indexer_not_member.
Qed.

Lemma type_get_type_indexer_witness :
  type_get (type_indexer (class_t "int") [class_t "std::string"; class_t "int"; class_t "bool"])
    [class_t "std::string"; class_t "int"; class_t "bool"] = class_t "int"
  ∧ type_indexer (class_t "char") [class_t "std::string"; class_t "int"; class_t "bool"]
    = invalid_idx.
Proof.
  split.
  - apply (proj1 (type_get_type_indexer (class_t "int")
                    [class_t "std::string"; class_t "int"; class_t "bool"])).
    reflexivity.
  - apply (proj2 (type_get_type_indexer (class_t "char")
                    [class_t "std::string"; class_t "int"; class_t "bool"])).
    intros Hin. repeat (apply elem_of_cons in Hin as [Hin|Hin]; [discriminate Hin|]).
    by apply elem_of_nil in Hin.
Defined.

Section lifetime.

Context {value : Type}.
Variable Args : list cpp_type.

Implicit Types (c : @tagged_union_t value) (u : value) (T U P : cpp_type).

(** The visit reaches the alternative the tag stands for. *)
Lemma visit_impl_active {R : Type} (f : cpp_type -> value -> R) c P Types :
  P ∈ Types -> Types ⊆ Args -> type_id c = type_indexer P Args ->
  visit_impl Args f c Types = Some (f P (buffer c)).
Proof.
  intros Hin Hsub Htag. induction Types as [|First Types' IH].
  - by apply elem_of_nil in Hin.
  - destruct Types' as [|Second Types''].
    + apply list_elem_of_singleton in Hin as ->. done.
    + cbn [visit_impl]. unfold is_ at 1. rewrite Htag.
      destruct (Z.eqb_spec (type_indexer First Args) (type_indexer P Args)) as [Heq|Hne].
      * assert (First = P) as ->; [|done].
        apply (type_indexer_inj _ _ Args); [| |done].
        -- apply Hsub, elem_of_cons; by left.
        -- apply Hsub, Hin.
      * apply IH.
        -- apply elem_of_cons in Hin as [->|Hin]; [done|exact Hin].
        -- intros X HX. apply Hsub, elem_of_cons. by right.
Qed.

Lemma dtor_unsafe_active c P :
  P ∈ Args -> type_id c = type_indexer P Args ->
  dtor_unsafe Args c = [dtor_call P (buffer c)].
Proof.
  intros Hin Htag. unfold dtor_unsafe, visit.
  by rewrite (visit_impl_active _ c P Args Hin).
Qed.

(** What [operator=] does, when [c] holds the alternative [P]. *)
Lemma assign_active U u c P :
  P ∈ Args -> type_id c = type_indexer P Args ->
  assign Args U u c =
    ({| type_id := type_indexer (decay U) Args; buffer := u |},
     (if is_ Args U c then [] else [dtor_call P (buffer c)]) ++ [ctor_call (decay U) u]).
Proof.
  intros Hin Htag. unfold assign, construct_unsafe.
  destruct (is_ Args U c); cbn [negb]; [done|].
  by rewrite (dtor_unsafe_active c P).
Qed.

(** What the copy assignment does: the destructor always runs. *)
Lemma assign_copy_active other c P Q :
  P ∈ Args -> type_id c = type_indexer P Args ->
  Q ∈ Args -> type_id other = type_indexer Q Args ->
  assign_copy Args false other c =
    ({| type_id := type_indexer Q Args; buffer := buffer other |},
     [dtor_call P (buffer c); ctor_call Q (buffer other)]).
Proof.
  intros HP Hc HQ Hother. unfold assign_copy, copy_unsafe, visit.
  rewrite (dtor_unsafe_active c P HP Hc).
  by rewrite (visit_impl_active _ other Q Args HQ).
Qed.

(** What [emplace] does: the destructor always runs. *)
Lemma emplace_active U u c P :
  P ∈ Args -> type_id c = type_indexer P Args ->
  emplace Args U u c =
    ({| type_id := type_indexer (decay U) Args; buffer := u |},
     [dtor_call P (buffer c); ctor_call (decay U) u]).
Proof.
  intros Hin Htag. unfold emplace, construct_emplace_unsafe.
  by rewrite (dtor_unsafe_active c P).
Qed.

(** After an assignment the alternative [decay U] is the active one, it is
    the only one, and the checked read gives the assigned value. *)
Lemma assign_result U u c :
  decay U ∈ Args ->
  let c' := (assign Args U u c).1 in
  get Args (decay U) c' = inl u
  ∧ forall T, T ∈ Args -> is_ Args T c' = true -> T = decay U.
Proof.
  intros Hin. unfold assign, construct_unsafe.
  destruct (negb (is_ Args U c)); cbn [fst]; unfold get, is_, get_unsafe; cbn [type_id buffer].
  all: rewrite Z.eqb_refl; split; [done|].
  all: intros T HT Heq; apply Z.eqb_eq in Heq; by apply (type_indexer_inj _ _ Args).
Qed.

(** An assignment that replaces another alternative destroys the value held
    before exactly once. *)
Lemma assign_other_alternative U u c P :
  P ∈ Args -> type_id c = type_indexer P Args -> is_ Args U c = false ->
  destructions (assign Args U u c).2 = [dtor_call P (buffer c)].
Proof.
  intros Hin Htag Hother. rewrite (assign_active U u c P Hin Htag), Hother. done.
Qed.

(** An assignment from an lvalue deduces a reference type for [U], which is
    no alternative: the value held before is destroyed, whatever it is. *)
Lemma assign_lvalue T u c P :
  P ∈ Args -> type_id c = type_indexer P Args ->
  lvalue_ref_t T ∉ Args -> (sizeof_pack Args <= invalid_idx)%Z ->
  destructions (assign Args (lvalue_ref_t T) u c).2 = [dtor_call P (buffer c)].
Proof.
  intros Hin Htag Href Hsize. apply assign_other_alternative; [done..|].
  unfold is_. rewrite (type_indexer_not_member _ _ Href), Htag.
  pose proof (type_indexer_member _ _ Hin). apply Z.eqb_neq. lia.
Qed.

(** An assignment from an rvalue of the alternative already held runs no
    destructor: the new object is built over the old one. *)
Lemma assign_same_alternative U u c :
  U ∈ Args -> type_id c = type_indexer U Args ->
  destructions (assign Args U u c).2 = [].
Proof.
  intros Hin Htag. rewrite (assign_active U u c U Hin Htag).
  unfold is_. rewrite Htag, Z.eqb_refl. done.
Qed.

(** The checked read throws exactly when the alternative is not held. *)
Lemma get_throws_iff T c :
  (exists e, get Args T c = inr e) <-> is_ Args T c = false.
Proof.
  unfold get. destruct (is_ Args T c); split; try done.
  - by intros [e He].
  - intros _. by eexists.
Qed.

Lemma get_held T c : is_ Args T c = true -> get Args T c = inl (buffer c).
Proof. unfold get. by intros ->. Qed.

Lemma get_if_held T c : is_ Args T c = true -> get_if Args T c = Some (buffer c).
Proof. unfold get_if. by intros ->. Qed.

Lemma get_if_not_held T c : is_ Args T c = false -> get_if Args T c = None.
Proof. unfold get_if. by intros ->. Qed.

End lifetime.

(** C9. The assignment [c = std::string("new")] to a
    [choice_t<std::string, int>] that holds the string ["old"]: the tag says
    [std::string] is held, [operator=] skips [dtor_unsafe()] and builds the
    new string over the old one, so no destructor runs for ["old"]. The
    siblings [emplace] and move assignment, and an assignment from an
    lvalue, destroy it once. *)
Theorem assign_same_alternative_runs_no_destructor :
  let Args := [class_t "std::string"; class_t "int"] in
  let c : tagged_union_t := {| type_id := 1; buffer := "old" |} in
  is_ Args (class_t "std::string") c = true
  ∧ assign Args (class_t "std::string") "new" c
    = ({| type_id := 1; buffer := "new" |}, [ctor_call (class_t "std::string") "new"])
  ∧ destructions (assign Args (class_t "std::string") "new" c).2 = []
  ∧ destructions (emplace Args (class_t "std::string") "new" c).2
    = [dtor_call (class_t "std::string") "old"]
  ∧ destructions (assign_move Args {| type_id := 1; buffer := "new" |} c).2
    = [dtor_call (class_t "std::string") "old"]
  ∧ destructions (assign Args (lvalue_ref_t (class_t "std::string")) "new" c).2
    = [dtor_call (class_t "std::string") "old"].
Proof. repeat split. Qed.

(** The checked read of an alternative that is not held throws: a
    [choice_t<std::string, int>] holding a string, read as [int]. *)
Lemma get_of_inactive_alternative_throws :
  get [class_t "std::string"; class_t "int"] (class_t "int")
    {| type_id := 1; buffer := "old" |}
  = inr (bad_choice_access_what "in get<T>").
Proof. reflexivity. Qed.

(** *** More on the type list *)

Lemma size_wrap_small z : (0 <= z < 2 ^ 64)%Z -> size_wrap z = z.
Proof. intros Hz. unfold size_wrap. by apply Z.mod_small. Qed.

Lemma static_max_spec (arg1 : Z) (others : list Z) :
  (arg1 <= static_max arg1 others)%Z
  ∧ Forall (fun arg => (arg <= static_max arg1 others)%Z) others
  ∧ static_max arg1 others ∈ arg1 :: others.
Proof.
  revert arg1. induction others as [|arg2 others IH]; intros arg1; cbn [static_max].
  - split; [lia|]. split; [constructor|]. apply elem_of_cons. by left.
  - destruct (Z.geb_spec arg1 arg2) as [Hge|Hlt].
    + destruct (IH arg1) as (H1 & Hall & Hin). split; [done|]. split.
      * constructor; [lia|done].
      * apply elem_of_cons in Hin as [->|Hin]; [apply elem_of_cons; by left|].
        apply elem_of_cons; right. apply elem_of_cons; by right.
    + destruct (IH arg2) as (H2 & Hall & Hin). split; [lia|]. split.
      * by constructor.
      * apply elem_of_cons. by right.
Qed.

Lemma type_get_nth (Types : list cpp_type) (i : nat) T :
  Types !! i = Some T ->
  type_get (sizeof_pack Types - Z.of_nat i - 1) Types = T.
Proof.
  revert i. induction Types as [|First Types' IH]; intros i Hi; [done|].
  assert (sizeof_pack (First :: Types') = sizeof_pack Types' + 1)%Z as ->
    by (unfold sizeof_pack; cbn [length]; lia).
  cbn [type_get]. destruct i as [|j]; cbn in Hi.
  - injection Hi as ->.
    replace (sizeof_pack Types' + 1 - Z.of_nat 0 - 1)%Z with (sizeof_pack Types') by lia.
    by rewrite Z.eqb_refl.
  - replace (sizeof_pack Types' + 1 - Z.of_nat (S j) - 1)%Z
      with (sizeof_pack Types' - Z.of_nat j - 1)%Z by lia.
    destruct (Z.eqb_spec (sizeof_pack Types' - Z.of_nat j - 1) (sizeof_pack Types')); [lia|].
    by apply IH.
Qed.

(** X1. The index [type_indexer] gives a type is the reversed position of
    its first occurrence: the number of types listed after it. A later
    occurrence of the same type is never indexed. *)
Theorem type_indexer_first_occurrence (T : cpp_type) (before after : list cpp_type) :
  T ∉ before ->
  type_indexer T (before ++ T :: after) = sizeof_pack after.
Proof.
  induction before as [|First before IH]; intros Hfresh; cbn [app type_indexer].
  - by rewrite bool_decide_eq_true_2.
  - apply not_elem_of_cons in Hfresh as [Hne Hfresh].
    rewrite bool_decide_eq_false_2 by done. by apply IH.
Qed.

(** X2. On a type list without repetition [type_indexer] undoes [type_get]:
    the type found at a position of the list has that position as its
    index. *)
Theorem type_indexer_undoes_type_get (I : size_idx_t) (Args : list cpp_type) :
  NoDup Args -> (0 <= I < sizeof_pack Args)%Z ->
  type_indexer (type_get I Args) Args = I.
Proof. apply type_indexer_type_get. Qed.

(** X3. [can_hold_type<T>()] tells whether [T] is one of the alternatives,
    for a type list shorter than [invalid_idx]. *)
Theorem can_hold_type_iff_member (T : cpp_type) (Args : list cpp_type) :
  (sizeof_pack Args <= invalid_idx)%Z ->
  can_hold_type Args T = true <-> T ∈ Args.
Proof.
  intros Hsize. unfold can_hold_type. rewrite negb_true_iff, Z.eqb_neq. split.
  - intros Hvalid. destruct (decide (T ∈ Args)) as [|Hnin]; [done|].
    by rewrite (type_indexer_not_member _ _ Hnin) in Hvalid.
  - intros Hin. pose proof (type_indexer_member _ _ Hin). lia.
Qed.

(** X4. The storage of a tagged union fits every alternative: [max_size]
    is at least the size of each alternative and is the size of one of
    them, and [max_align] is the same for the alignments. *)
Theorem storage_fits_every_alternative (size_of align_of : cpp_type -> Z)
    (Args : list cpp_type) (T : cpp_type) :
  T ∈ Args ->
  exists size align,
    max_size Args size_of = Some size
    ∧ max_align Args align_of = Some align
    ∧ (size_of T <= size)%Z ∧ (align_of T <= align)%Z
    ∧ (exists L, L ∈ Args ∧ size_of L = size)
    ∧ (exists L, L ∈ Args ∧ align_of L = align).
Proof.
  intros Hin. unfold max_size, max_align.
  destruct Args as [|First rest]; [by apply elem_of_nil in Hin|]. cbn [fmap list_fmap].
  assert (forall measure : cpp_type -> Z,
            (measure T <= static_max (measure First) (measure <$> rest))%Z
            ∧ exists L, L ∈ First :: rest
                        ∧ measure L = static_max (measure First) (measure <$> rest))
    as Hmax.
  { intros measure.
    destruct (static_max_spec (measure First) (measure <$> rest)) as (Hfirst & Hall & Hmem).
    split.
    - apply elem_of_cons in Hin as [->|Hin]; [done|].
      rewrite Forall_forall in Hall. apply Hall. by apply list_elem_of_fmap_2.
    - change (measure First :: (measure <$> rest)) with (measure <$> (First :: rest)) in Hmem.
      apply list_elem_of_fmap in Hmem as (L & HL & HinL). by exists L. }
  destruct (Hmax size_of) as [Hsize Hsome], (Hmax align_of) as [Halign Hsome'].
  eexists _, _. by split_and!.
Qed.

Section choice_properties.

Context {value : Type}.
Variable Args : list cpp_type.

Implicit Types (c other uninit : @tagged_union_t value) (u : value) (T U P Q : cpp_type).

Lemma holds_is P c : holds Args P c -> is_ Args P c = true.
Proof. intros [_ Htag]. unfold is_. rewrite Htag. apply Z.eqb_refl. Qed.

Lemma holds_is_iff P c T :
  holds Args P c -> (sizeof_pack Args <= invalid_idx)%Z ->
  is_ Args T c = true <-> T = P.
Proof.
  intros [Hin Htag] Hsize. unfold is_. rewrite Htag, Z.eqb_eq. split; [|by intros ->].
  intros Heq. destruct (decide (T ∈ Args)) as [HT|HT].
  - by apply (type_indexer_inj _ _ Args).
  - rewrite (type_indexer_not_member _ _ HT) in Heq.
    pose proof (type_indexer_member _ _ Hin). lia.
Qed.

Lemma construct_holds U u c :
  decay U ∈ Args -> holds Args (decay U) (construct_unsafe Args U u c).1.
Proof. by intros Hin. Qed.

Lemma copy_unsafe_holds other c Q :
  holds Args Q other -> is_object_type Q = true ->
  copy_unsafe Args other c = (other, [ctor_call Q (buffer other)]).
Proof.
  intros [Hin Htag] Hobj. unfold copy_unsafe, visit.
  rewrite (visit_impl_active Args _ other Q Args Hin) by done.
  destruct Q; try done. cbn. unfold construct_unsafe. cbn. rewrite <- Htag. by destruct other.
Qed.

Lemma move_unsafe_holds other c Q :
  holds Args Q other -> is_object_type Q = true ->
  move_unsafe Args other c = (other, [ctor_call Q (buffer other)]).
Proof.
  intros [Hin Htag] Hobj. unfold move_unsafe, visit.
  rewrite (visit_impl_active Args _ other Q Args Hin) by done.
  destruct Q; try done. cbn. unfold construct_unsafe. cbn. rewrite <- Htag. by destruct other.
Qed.

Lemma visit_impl_unmatched {R : Type} (f : cpp_type -> value -> R) c Types L :
  Forall (fun T => is_ Args T c = false) Types -> last Types = Some L ->
  visit_impl Args f c Types = Some (f L (buffer c)).
Proof.
  induction Types as [|First Types' IH]; intros Hnone Hlast; [done|].
  destruct Types' as [|Second Types''].
  - by injection Hlast as ->.
  - cbn [visit_impl]. inversion Hnone as [|? ? Hfirst Hrest]; subst. rewrite Hfirst.
    apply IH; [done|]. exact Hlast.
Qed.

(** X5. The default alternative is the first type of the list, and a choice
    built by the default constructor holds it, with the value built. *)
Theorem default_constructed_holds_first (First : cpp_type) (rest : list cpp_type) uninit u :
  (sizeof_pack (First :: rest) <= invalid_idx)%Z ->
  decay First = First ->
  default_type (First :: rest) = First
  ∧ holds (First :: rest) First (ctor_default (First :: rest) uninit u).1
  ∧ get (First :: rest) First (ctor_default (First :: rest) uninit u).1 = inl u
  ∧ (ctor_default (First :: rest) uninit u).2 = [ctor_call First u].
Proof.
  intros Hsize Hdecay.
  assert (default_type (First :: rest) = First) as Hdefault.
  { unfold default_type. cbn [type_get].
    rewrite size_wrap_small; unfold sizeof_pack in *; cbn [length] in *;
      [|unfold invalid_idx in Hsize; lia].
    destruct (Z.eqb_spec (Z.of_nat (S (length rest)) - 1) (Z.of_nat (length rest))); [done|lia]. }
  unfold ctor_default, construct_emplace_unsafe. rewrite Hdefault, Hdecay. cbn [fst snd].
  split_and!; try done.
  - split; [apply elem_of_cons; by left|done].
  - unfold get, is_. cbn [type_id]. by rewrite Z.eqb_refl.
Qed.

(** X6. [get<I>()] reads the alternative listed at position [I], counted
    from the front of the type list: it gives the stored value when that
    alternative is the one held, and throws otherwise. *)
Theorem get_at_reads_listed_position (i : nat) T c :
  Args !! i = Some T -> (sizeof_pack Args <= invalid_idx)%Z ->
  get_at Args (Z.of_nat i) c
  = if is_ Args T c then inl (buffer c) else inr (bad_choice_access_what "in get<I>").
Proof.
  intros Hi Hsize. unfold get_at.
  pose proof (lookup_lt_Some _ _ _ Hi) as Hlt.
  rewrite size_wrap_small
    by (unfold sizeof_pack, invalid_idx in *; lia).
  by rewrite (type_get_nth Args i T Hi).
Qed.

(** X7. On a choice that holds an alternative, a visit calls the functor
    once, on that alternative and the stored value; the destructor, which
    is such a visit, destroys that alternative and nothing else. *)
Theorem visit_reaches_the_held_alternative {R : Type} (f : cpp_type -> value -> R) P c :
  holds Args P c ->
  visit Args f c = Some (f P (buffer c))
  ∧ dtor Args c = [dtor_call P (buffer c)].
Proof.
  intros [Hin Htag]. split.
  - unfold visit. by apply visit_impl_active.
  - unfold dtor. by apply dtor_unsafe_active.
Qed.

(** X8. A visit never tests the last alternative: on a choice whose tag is
    the index of no alternative, the functor is called on the last type of
    the list all the same. *)
Theorem visit_falls_through_to_last {R : Type} (f : cpp_type -> value -> R) c L :
  Forall (fun T => is_ Args T c = false) Args -> last Args = Some L ->
  visit Args f c = Some (f L (buffer c)).
Proof. intros Hnone Hlast. unfold visit. by apply visit_impl_unmatched. Qed.

(** X9. A choice built from a value holds the alternative of that value and
    no other: the checked read and [get_if] of that alternative give the
    value back, those of every other type throw and give null, and no
    destructor runs. *)
Theorem constructed_choice_round_trip U u T :
  decay U ∈ Args -> (sizeof_pack Args <= invalid_idx)%Z ->
  let c := (ctor Args U u).1 in
  holds Args (decay U) c
  ∧ get Args (decay U) c = inl u
  ∧ get_if Args (decay U) c = Some u
  ∧ (T ≠ decay U ->
     get Args T c = inr (bad_choice_access_what "in get<T>") ∧ get_if Args T c = None)
  ∧ (ctor Args U u).2 = [ctor_call (decay U) u].
Proof.
  intros Hin Hsize c.
  assert (holds Args (decay U) c) as Hholds by done.
  pose proof (holds_is _ _ Hholds) as His.
  split_and!; try done.
  - unfold get. by rewrite His.
  - unfold get_if. by rewrite His.
  - intros Hne. assert (is_ Args T c = false) as Hnot.
    { apply not_true_iff_false. intros Hyes.
      by apply (holds_is_iff _ _ T Hholds Hsize) in Hyes. }
    unfold get, get_if. by rewrite Hnot.
Qed.

(** X10. Every way of building or changing a choice leaves it holding one of
    its alternatives: the converting constructor, [operator=] from a value
    and [emplace], for a type the choice can hold, and the copy and move
    constructors and assignments, from a choice that holds one. *)
Theorem choice_always_holds_an_alternative U u c other uninit Q :
  decay U ∈ Args -> holds Args Q other -> is_object_type Q = true ->
  holds Args (decay U) (ctor Args U u).1
  ∧ holds Args (decay U) (assign Args U u c).1
  ∧ holds Args (decay U) (emplace Args U u c).1
  ∧ holds Args Q (ctor_copy Args uninit other).1
  ∧ holds Args Q (ctor_move Args uninit other).1
  ∧ holds Args Q (assign_copy Args false other c).1
  ∧ holds Args Q (assign_move Args other c).1.
Proof.
  intros HU Hother Hobj. split_and!.
  - done.
  - unfold assign, construct_unsafe. by destruct (negb _).
  - done.
  - unfold ctor_copy. by rewrite (copy_unsafe_holds other uninit Q).
  - unfold ctor_move. by rewrite (move_unsafe_holds other uninit Q).
  - unfold assign_copy. by rewrite (copy_unsafe_holds other c Q).
  - unfold assign_move. by rewrite (move_unsafe_holds other c Q).
Qed.

(** X11. The copy and the move constructor give a choice equal to the one
    copied from, same tag and same value, by one constructor call of the
    alternative held. *)
Theorem copy_of_a_choice_is_equal uninit other Q :
  holds Args Q other -> is_object_type Q = true ->
  ctor_copy Args uninit other = (other, [ctor_call Q (buffer other)])
  ∧ ctor_move Args uninit other = (other, [ctor_call Q (buffer other)])
  ∧ holds_same_type (ctor_copy Args uninit other).1 other = true.
Proof.
  intros Hother Hobj. unfold ctor_copy, ctor_move.
  rewrite (copy_unsafe_holds other uninit Q), (move_unsafe_holds other uninit Q) by done.
  split_and!; [done..|]. unfold holds_same_type. apply Z.eqb_refl.
Qed.

(** X12. Copy assignment from the choice itself does nothing; from another
    choice it destroys the value held, once, and leaves the choice equal to
    the other. Move assignment does the same, without the test. *)
Theorem copy_and_move_assignment other c P Q :
  holds Args P c -> holds Args Q other -> is_object_type Q = true ->
  assign_copy Args true other c = (c, [])
  ∧ assign_copy Args false other c
    = (other, [dtor_call P (buffer c); ctor_call Q (buffer other)])
  ∧ assign_move Args other c
    = (other, [dtor_call P (buffer c); ctor_call Q (buffer other)]).
Proof.
  intros [HP Hc] Hother Hobj. unfold assign_copy, assign_move.
  rewrite (copy_unsafe_holds other c Q), (move_unsafe_holds other c Q) by done.
  by rewrite (dtor_unsafe_active Args c P HP Hc).
Qed.

(** X13. [emplace<U>] destroys the value held, once, whatever the
    alternative, and leaves the choice holding [U] with the value built. *)
Theorem emplace_replaces_the_value U u c P :
  holds Args P c -> decay U ∈ Args ->
  destructions (emplace Args U u c).2 = [dtor_call P (buffer c)]
  ∧ holds Args (decay U) (emplace Args U u c).1
  ∧ get Args (decay U) (emplace Args U u c).1 = inl u.
Proof.
  intros [HP Hc] HU. rewrite (emplace_active Args U u c P HP Hc). cbn [fst snd].
  split_and!; [done..|]. unfold get, is_. cbn [type_id]. by rewrite Z.eqb_refl.
Qed.

(** X14. [holds_same_type] tells whether two choices hold the same
    alternative. *)
Theorem holds_same_type_iff c other P Q :
  holds Args P c -> holds Args Q other ->
  holds_same_type c other = true <-> P = Q.
Proof.
  intros [HP Hc] [HQ Hother]. unfold holds_same_type. rewrite Hc, Hother, Z.eqb_eq.
  split; [|by intros ->]. by apply type_indexer_inj.
Qed.

(** X15. A choice that holds an alternative holds exactly that one: [is<T>]
    and [holds_alternative<T>] are true of it and of no other type, listed
    or not. *)
Theorem exactly_one_alternative_is_held P c T :
  holds Args P c -> (sizeof_pack Args <= invalid_idx)%Z ->
  (is_ Args T c = true <-> T = P)
  ∧ (holds_alternative Args T c = true <-> T = P).
Proof. intros Hholds Hsize. split; by apply holds_is_iff. Qed.

(** X16. [operator=] from a value leaves the choice holding the alternative
    of the value, which the checked read gives back; when the type deduced
    for the argument is not the alternative held, as for every lvalue, the
    value held is destroyed exactly once. *)
Theorem assignment_from_a_value U u c P :
  holds Args P c -> decay U ∈ Args -> (sizeof_pack Args <= invalid_idx)%Z ->
  get Args (decay U) (assign Args U u c).1 = inl u
  ∧ get_if Args (decay U) (assign Args U u c).1 = Some u
  ∧ (U ≠ P -> destructions (assign Args U u c).2 = [dtor_call P (buffer c)]).
Proof.
  intros Hholds HU Hsize. pose proof Hholds as [HP Hc].
  rewrite (assign_active Args U u c P HP Hc). cbn [fst snd].
  split_and!.
  - unfold get, is_. cbn [type_id]. by rewrite Z.eqb_refl.
  - unfold get_if, is_. cbn [type_id]. by rewrite Z.eqb_refl.
  - intros Hne. assert (is_ Args U c = false) as ->; [|done].
    apply not_true_iff_false. intros Hyes.
    by apply (holds_is_iff _ _ U Hholds Hsize) in Hyes.
Qed.

End choice_properties.

(** *** The properties at work, on [choice_t<std::string, int>] *)

Ltac by_decide := apply (bool_decide_unpack _); vm_compute; exact I.

Lemma holding_string_holds : holds string_or_int (class_t "std::string") holding_string.
Proof. split; [by_decide|reflexivity]. Qed.

Lemma holding_int_holds : holds string_or_int (class_t "int") holding_int.
Proof. split; [by_decide|reflexivity]. Qed.

Lemma string_or_int_small : (sizeof_pack string_or_int <= invalid_idx)%Z.
Proof. by vm_compute. Qed.

Lemma type_indexer_first_occurrence_witness :
  type_indexer (class_t "int") ([class_t "bool"] ++ class_t "int" :: [class_t "char"; class_t "int"])
  = 2%Z.
Proof.
  apply (type_indexer_first_occurrence (class_t "int") [class_t "bool"]
           [class_t "char"; class_t "int"]).
  by_decide.
Defined.

Lemma type_indexer_undoes_type_get_witness :
  type_indexer (type_get 1 string_or_int) string_or_int = 1%Z.
Proof.
  apply (type_indexer_undoes_type_get 1 string_or_int); [by_decide|].
  vm_compute. split; [discriminate|reflexivity].
Defined.

Lemma can_hold_type_iff_member_witness :
  can_hold_type string_or_int (class_t "int") = true.
Proof.
  apply (can_hold_type_iff_member (class_t "int") string_or_int string_or_int_small).
  by_decide.
Defined.

Lemma storage_fits_every_alternative_witness :
  exists size align,
    max_size string_or_int (fun T => if bool_decide (T = class_t "int") then 4 else 32)%Z
    = Some size
    ∧ max_align string_or_int (fun T => if bool_decide (T = class_t "int") then 4 else 8)%Z
      = Some align
    ∧ (4 <= size)%Z ∧ (4 <= align)%Z.
Proof.
  destruct (storage_fits_every_alternative
              (fun T => if bool_decide (T = class_t "int") then 4 else 32)%Z
              (fun T => if bool_decide (T = class_t "int") then 4 else 8)%Z
              string_or_int (class_t "int"))
    as (size & align & Hsize & Halign & Hle & Hle' & _); [by_decide|].
  exists size, align. split; [exact Hsize|]. split; [exact Halign|]. split; [exact Hle|exact Hle'].
Defined.

Lemma default_constructed_holds_first_witness :
  default_type string_or_int = class_t "std::string".
Proof.
  apply (default_constructed_holds_first (class_t "std::string") [class_t "int"]
           holding_int "new"); [by vm_compute|reflexivity].
Defined.

Lemma get_at_reads_listed_position_witness :
  get_at string_or_int (Z.of_nat 1) holding_int = inl "7".
Proof.
  rewrite (get_at_reads_listed_position string_or_int 1%nat (class_t "int") holding_int);
    [reflexivity|reflexivity|exact string_or_int_small].
Defined.

Lemma visit_reaches_the_held_alternative_witness :
  dtor string_or_int holding_string = [dtor_call (class_t "std::string") "old"].
Proof.
  apply (visit_reaches_the_held_alternative string_or_int (fun _ v => v)
           (class_t "std::string") holding_string).
  exact holding_string_holds.
Defined.

Lemma visit_falls_through_to_last_witness :
  visit string_or_int (fun T (_ : string) => T) {| type_id := 9; buffer := "junk" |}
  = Some (class_t "int").
Proof.
  apply (visit_falls_through_to_last string_or_int (fun T (_ : string) => T)
           {| type_id := 9; buffer := "junk" |} (class_t "int")); [|reflexivity].
  repeat constructor.
Defined.

Lemma constructed_choice_round_trip_witness :
  get string_or_int (class_t "int") holding_string = inr (bad_choice_access_what "in get<T>")
  ∧ get_if string_or_int (class_t "int") holding_string = None.
Proof.
  apply (constructed_choice_round_trip string_or_int (class_t "std::string") "old"
           (class_t "int")); [by_decide|exact string_or_int_small|discriminate].
Defined.

Lemma choice_always_holds_an_alternative_witness :
  holds string_or_int (class_t "int")
    (assign string_or_int (class_t "int") "8" holding_string).1.
Proof.
  apply (choice_always_holds_an_alternative string_or_int (class_t "int") "8"
           holding_string holding_int holding_string (class_t "int"));
    [by_decide|exact holding_int_holds|reflexivity].
Defined.

Lemma copy_of_a_choice_is_equal_witness :
  (ctor_copy string_or_int holding_string holding_int).1 = holding_int.
Proof.
  rewrite (proj1 (copy_of_a_choice_is_equal string_or_int holding_string holding_int
                    (class_t "int") holding_int_holds eq_refl)).
  reflexivity.
Defined.

Lemma copy_and_move_assignment_witness :
  assign_copy string_or_int false holding_int holding_string
  = (holding_int, [dtor_call (class_t "std::string") "old"; ctor_call (class_t "int") "7"]).
Proof.
  apply (copy_and_move_assignment string_or_int holding_int holding_string
           (class_t "std::string") (class_t "int") holding_string_holds holding_int_holds
           eq_refl).
Defined.

Lemma emplace_replaces_the_value_witness :
  destructions (emplace string_or_int (class_t "std::string") "new" holding_string).2
  = [dtor_call (class_t "std::string") "old"].
Proof.
  apply (emplace_replaces_the_value string_or_int (class_t "std::string") "new"
           holding_string (class_t "std::string") holding_string_holds).
  by_decide.
Defined.

Lemma holds_same_type_iff_witness :
  holds_same_type holding_string holding_int = true <-> class_t "std::string" = class_t "int".
Proof.
  apply (holds_same_type_iff string_or_int holding_string holding_int);
    [exact holding_string_holds|exact holding_int_holds].
Defined.

Lemma exactly_one_alternative_is_held_witness :
  is_ string_or_int (class_t "int") holding_string = true
  <-> class_t "int" = class_t "std::string".
Proof.
  apply (exactly_one_alternative_is_held string_or_int (class_t "std::string")
           holding_string (class_t "int") holding_string_holds string_or_int_small).
Defined.

Lemma assignment_from_a_value_witness :
  destructions
    (assign string_or_int (lvalue_ref_t (class_t "std::string")) "new" holding_string).2
  = [dtor_call (class_t "std::string") "old"].
Proof.
  apply (assignment_from_a_value string_or_int (lvalue_ref_t (class_t "std::string")) "new"
           holding_string (class_t "std::string") holding_string_holds);
    [by_decide|exact string_or_int_small|discriminate].
Defined.

End choice_facts.

(** ** Properties of the agent *)

Module e2_facts.
Import e2.

Local Open Scope N_scope.

Section facts.

Context `{environment}.

Implicit Types (s : e2_agent) (e : e2ap) (pdu : e2_ap_pdu_c).

Ltac unfold_agent :=
  unfold log, push, record_tx, call_e2ap;
  unfold modify, gets;
  unfold mbind, M_bind, mret, M_ret;
  unfold set_running, set_ric_socket, set_e2ap, set_task_queue, set_logger, set_tx, set_thread;
  cbn [fst snd running ric_socket e2ap_ ric_rece_task_queue logger tx thread].

(** A call of [send_e2ap_pdu] is one outbound operation, however it ends,
    and touches nothing else. *)
Lemma send_e2ap_pdu_effect pdu s :
  effect s (send_e2ap_pdu pdu s).2 (e2ap_ s) []
    [{| tx_pdu := pdu; tx_outcome := send_outcome_of (length (tx s)) pdu |}].
Proof.
  unfold send_e2ap_pdu, send_sctp, send_outcome_of, effect. unfold_agent.
  destruct (make_byte_buffer _); cbn [negb]; unfold_agent;
    [|by rewrite ?app_nil_r].
  destruct (pack pdu); unfold_agent; [|by rewrite ?app_nil_r].
  destruct (sctp_sendmsg _ _); cbn [negb]; unfold_agent; by rewrite ?app_nil_r.
Qed.

(** **** The pending set *)

Lemma filter_filter_length {A : Type} (P Q : A -> Prop)
    `{forall x, Decision (P x)} `{forall x, Decision (Q x)} (l : list A) :
  (length (filter P (filter Q l)) <= length (filter P l))%nat.
Proof.
  induction l as [|x l IH]; [done|].
  rewrite !filter_cons. destruct (decide (Q x)), (decide (P x)); rewrite ?filter_cons;
    repeat case_decide; cbn [length]; try done; lia.
Qed.

Lemma pending_setups_set_pending l e :
  pending_setups (set_pending l e) = length (filter (fun p => kind p = setup_procedure) l).
Proof. done. Qed.

Lemma pending_setups_remove k key e :
  (pending_setups (remove_pending k key e) <= pending_setups e)%nat.
Proof. unfold remove_pending. rewrite pending_setups_set_pending. apply filter_filter_length. Qed.

Lemma has_pending_setups e :
  has_pending setup_procedure e = false <-> pending_setups e = 0%nat.
Proof.
  unfold has_pending, pending_setups. rewrite bool_decide_eq_false.
  induction (pending e) as [|p l IH];
    [split; [done | intros _ Hex; by apply Exists_nil in Hex]|].
  rewrite Exists_cons, filter_cons. case_decide; cbn [length]; split; try done.
  - intros Hno. exfalso. apply Hno. by left.
  - intros Hno. apply IH. intros Hex. apply Hno. by right.
  - intros Hlen [Hk|Hex]; [done|]. by apply IH in Hlen.
Qed.

Lemma send_setup_request_no_pending e :
  send_setup_request e = true -> pending_setups e = 0%nat.
Proof.
  unfold send_setup_request. intros Hdue.
  apply andb_prop in Hdue as [Hdue _]. apply andb_prop in Hdue as [_ Hdue].
  apply has_pending_setups. by apply negb_true_iff.
Qed.

Lemma send_setup_request_pending e :
  has_pending setup_procedure e = true -> send_setup_request e = false.
Proof. unfold send_setup_request. intros ->. by rewrite andb_false_r. Qed.

Lemma generate_setup_request_pending e :
  pending_setups (generate_setup_request e).2 = S (pending_setups e)
  ∧ has_pending setup_procedure (generate_setup_request e).2 = true
  ∧ is_setup_request (generate_setup_request e).1 = true.
Proof.
  unfold generate_setup_request, pending_setups, has_pending. cbn [fst snd pending].
  rewrite filter_app, length_app, filter_cons_True, filter_nil by done.
  split; [cbn [length]; lia|]. split; [|done].
  apply bool_decide_eq_true_2, Exists_app. right. by left.
Qed.

Lemma process_setup_response_pending r e :
  (pending_setups (process_setup_response r e).2 <= pending_setups e)%nat.
Proof.
  unfold process_setup_response. destruct (is_pending _ _ e); cbn [snd]; [|done].
  apply pending_setups_remove.
Qed.

Lemma process_e2_setup_failure_pending r e :
  (pending_setups (process_e2_setup_failure r e).2 <= pending_setups e)%nat.
Proof.
  unfold process_e2_setup_failure. destruct (is_pending _ _ e); cbn [snd]; [|done].
  apply pending_setups_remove.
Qed.

Lemma process_failure_pending k key e :
  (pending_setups (process_failure k key e).2 <= pending_setups e)%nat.
Proof.
  unfold process_failure. destruct (is_pending _ _ e); cbn [snd]; [|done].
  apply pending_setups_remove.
Qed.

Lemma process_reset_request_pending r e :
  pending_setups (process_reset_request r e).2 = 0%nat.
Proof. done. Qed.

Lemma process_subscription_request_pending r e :
  pending (process_subscription_request r e).1.2 = pending e
  ∧ Forall (fun pdu => is_subscription_reply pdu = true) (process_subscription_request r e).2
  ∧ length (process_subscription_request r e).2 = 1%nat.
Proof.
  unfold process_subscription_request. destruct (admitted_actions r); cbn; repeat split;
    by repeat constructor.
Qed.

Lemma process_subscription_delete_request_pending r e :
  pending (process_subscription_delete_request r e).1.2 = pending e
  ∧ Forall (fun pdu => is_setup_request pdu = false) (process_subscription_delete_request r e).2.
Proof.
  unfold process_subscription_delete_request. destruct (subscriptions e !! _); cbn; split;
    by repeat constructor.
Qed.

Lemma timers_step_pending e :
  (pending_setups (timers_step e) <= pending_setups e)%nat.
Proof.
  unfold timers_step, pending_setups. cbn [pending]. apply filter_filter_length.
Qed.

(** **** What each member function does to the agent *)

Lemma M_bind_eq {A B : Type} (m : M A) (f : A -> M B) s :
  (m ≫= f) s = f (m s).1 (m s).2.
Proof. unfold mbind, M_bind. by destruct (m s). Qed.

Lemma queue_all_eq (rc : Z) (pdus : list e2_ap_pdu_c) s :
  foldr (fun pdu k => queue_send_e2ap_pdu pdu;; k) (mret rc : M Z) pdus s
  = (rc, set_task_queue (ric_rece_task_queue s ++ map send_e2ap_pdu_task pdus) s).
Proof.
  revert s. induction pdus as [|pdu pdus IH]; intros s; cbn [foldr map].
  - unfold_agent. rewrite app_nil_r. by destruct s.
  - rewrite M_bind_eq, IH. unfold queue_send_e2ap_pdu. unfold_agent.
    by rewrite <- app_assoc.
Qed.

Lemma call_e2ap_queueing_eq (f : e2ap -> Z * e2ap * list e2_ap_pdu_c) s :
  call_e2ap_queueing f s
  = ((f (e2ap_ s)).1.1,
     set_task_queue (ric_rece_task_queue s ++ map send_e2ap_pdu_task (f (e2ap_ s)).2)
       (set_e2ap (f (e2ap_ s)).1.2 s)).
Proof.
  unfold call_e2ap_queueing. rewrite M_bind_eq. unfold call_e2ap.
  destruct (f (e2ap_ s)) as [[rc e'] pdus]. cbn [fst snd].
  rewrite queue_all_eq. done.
Qed.

Lemma handle_ric_subscription_request_effect r s :
  effect s (handle_ric_subscription_request r s).2
    (process_subscription_request r (e2ap_ s)).1.2
    (map send_e2ap_pdu_task (process_subscription_request r (e2ap_ s)).2) []
  ∧ (handle_ric_subscription_request r s).1
    = negb (truthy (process_subscription_request r (e2ap_ s)).1.1).
Proof.
  unfold handle_ric_subscription_request. unfold_agent. rewrite call_e2ap_queueing_eq.
  destruct (truthy _); unfold effect; unfold_agent; rewrite ?app_nil_r; done.
Qed.

Lemma handle_reset_request_effect r s :
  effect s (handle_reset_request r s).2 (process_reset_request r (e2ap_ s)).2
    [send_reset_resp] []
  ∧ (handle_reset_request r s).1 = true.
Proof.
  unfold handle_reset_request, effect. unfold_agent. rewrite ?app_nil_r. done.
Qed.

(** Case analysis on the results of the calls into [e2ap_]. *)
Ltac case_e2ap :=
  repeat (match goal with
          | |- context [truthy SRSRAN_SUCCESS] => change (truthy SRSRAN_SUCCESS) with false
          | |- context [truthy ?rc] => destruct (truthy rc) eqn:?
          | |- context [let '(_, _) := ?f ?r (e2ap_ ?s) in _] =>
              destruct (f r (e2ap_ s)) as [? ?] eqn:?
          end; unfold_agent).

Ltac solve_effect :=
  unfold effect; unfold_agent; case_e2ap;
  rewrite ?app_nil_r; repeat split; try reflexivity.

(** Bytes that do not decode change nothing but the lines written. *)
Lemma handle_e2_rx_msg_undecoded (buf : byte_buffer) s :
  unpack buf = None ->
  handle_e2_rx_msg buf s
  = (false,
     set_logger (logger s ++ [(stdout, "E2_AGENT: Received %d bytes from %s\n");
                              (log_error, "Failed to unpack RX E2 PDU")]) s).
Proof.
  intros Hbad. unfold handle_e2_rx_msg. rewrite Hbad. unfold_agent.
  by rewrite <- app_assoc.
Qed.

(** The dispatch of a decoded message, seen from the session. *)
Lemma handle_e2_rx_msg_decoded (buf : byte_buffer) pdu_c s :
  unpack buf = Some pdu_c ->
  effect s (handle_e2_rx_msg buf s).2
    (session_rx pdu_c (e2ap_ s)).1 (session_rx pdu_c (e2ap_ s)).2 []
  ∧ (handle_e2_rx_msg buf s).1 = true.
Proof.
  intros Hok. unfold handle_e2_rx_msg. rewrite Hok.
  destruct pdu_c as [[]|[]|[]|]; cbn [session_rx];
    unfold handle_e2_init_msg, handle_e2_successful_outcome, handle_e2_unsuccessful_outcome,
      handle_ric_subscription_request, handle_ric_subscription_delete_request,
      handle_reset_request, handle_reset_response, handle_e2_setup_response, process_or_fail,
      process_reset_request;
    unfold_agent; rewrite ?call_e2ap_queueing_eq.
  all: solve_effect.
Qed.

Lemma session_rx_pending pdu_c e :
  (pending_setups (session_rx pdu_c e).1 <= pending_setups e)%nat
  ∧ Forall benign_task (session_rx pdu_c e).2.
Proof.
  destruct pdu_c as [[]|[]|[]|]; cbn [session_rx fst snd]; try (split; [lia|constructor]).
  - destruct (process_subscription_request_pending r e) as (Hp & Hq & _).
    unfold pending_setups. rewrite Hp. split; [lia|].
    apply Forall_fmap. eapply Forall_impl; [exact Hq|].
    intros [[]|[]|[]|]; cbn; congruence.
  - destruct (process_subscription_delete_request_pending r e) as (Hp & Hq).
    unfold pending_setups. rewrite Hp. split; [lia|]. by apply Forall_fmap.
  - split; [rewrite process_reset_request_pending; lia|]. by repeat constructor.
  - split; [apply process_setup_response_pending|constructor].
  - split; [apply process_failure_pending|constructor].
  - split; [apply process_e2_setup_failure_pending|constructor].
  - split; [apply process_failure_pending|constructor].
  - split; [apply process_failure_pending|constructor].
  - split; [apply process_failure_pending|constructor].
Qed.

Lemma send_after_call_effect (g : e2ap -> e2_ap_pdu_c * e2ap) s :
  effect s ((send_pdu ← call_e2ap g; send_e2ap_pdu send_pdu) s).2 (g (e2ap_ s)).2 []
    [{| tx_pdu := (g (e2ap_ s)).1;
        tx_outcome := send_outcome_of (length (tx s)) (g (e2ap_ s)).1 |}].
Proof.
  rewrite M_bind_eq. unfold call_e2ap. destruct (g (e2ap_ s)) as [pdu e']. cbn [fst snd].
  pose proof (send_e2ap_pdu_effect pdu (set_e2ap e' s)) as Ho.
  revert Ho. unfold effect. unfold_agent. done.
Qed.

(** What running a task does. *)
Lemma run_task_effect t s :
  exists e' q tl,
    effect s (run_task t s).2 e' q tl
    ∧ (pending_setups e' <= pending_setups (e2ap_ s))%nat
    ∧ Forall benign_task q
    ∧ (benign_task t -> Forall (fun r => is_setup_request (tx_pdu r) = false) tl).
Proof.
  destruct t as [buf| |pdu]; unfold run_task; rewrite M_bind_eq; unfold mret, M_ret; cbn [snd].
  - destruct (unpack buf) as [pdu_c|] eqn:Hbuf.
    + destruct (handle_e2_rx_msg_decoded buf pdu_c s Hbuf) as [Heff _].
      destruct (session_rx_pending pdu_c (e2ap_ s)) as [Hp Hq].
      eexists _, _, _. split; [exact Heff|]. repeat split; [done..|]. by constructor.
    + rewrite (handle_e2_rx_msg_undecoded buf s Hbuf). cbn [snd].
      exists (e2ap_ s), [], []. unfold effect. unfold_agent. rewrite !app_nil_r.
      repeat split; by constructor.
  - unfold send_e2_msg. pose proof (send_after_call_effect generate_reset_response s) as Ho.
    eexists _, _, _. split; [exact Ho|]. cbn [generate_reset_response fst snd].
    repeat split; [lia|constructor|]. intros _. by repeat constructor.
  - pose proof (send_e2ap_pdu_effect pdu s) as Ho.
    eexists _, _, _. split; [exact Ho|].
    repeat split; [lia|constructor|]. intros Hb. by repeat constructor.
Qed.

(** What the body of the run loop does, up to [run_next_task()]. *)
Lemma run_thread_body_due s :
  send_setup_request (e2ap_ s) = true ->
  effect s (run_thread_body s).2 (generate_setup_request (e2ap_ s)).2 []
    [{| tx_pdu := (generate_setup_request (e2ap_ s)).1;
        tx_outcome := send_outcome_of (length (tx s)) (generate_setup_request (e2ap_ s)).1 |}].
Proof.
  intros Hdue. unfold run_thread_body. rewrite M_bind_eq. unfold gets at 1 2. cbn [fst snd].
  rewrite Hdue. rewrite M_bind_eq. unfold send_e2_msg.
  pose proof (send_after_call_effect generate_setup_request s) as Ho.
  revert Ho. unfold effect. unfold_agent. done.
Qed.

Lemma run_thread_body_not_due s :
  send_setup_request (e2ap_ s) = false -> run_thread_body s = (tt, s).
Proof.
  intros Hdue. unfold run_thread_body. rewrite M_bind_eq. unfold gets at 1 2. cbn [fst snd].
  by rewrite Hdue.
Qed.

(** **** The invariant of the run loop *)

Lemma fresh_due e : fresh e -> send_setup_request e = true.
Proof.
  intros (Hest & Hpend & Hretry). unfold send_setup_request, has_pending.
  rewrite Hest, Hpend. cbn. by apply N.leb_le.
Qed.

Lemma fresh_timers_step e : fresh e -> fresh (timers_step e).
Proof.
  intros (Hest & Hpend & Hretry). unfold fresh, timers_step. cbn.
  rewrite Hpend. cbn. repeat split; [done|lia].
Qed.

Lemma first_is_setup_request_app (l l' : list e2_ap_pdu_c) :
  l ≠ [] -> first_is_setup_request l -> first_is_setup_request (l ++ l').
Proof. by destruct l. Qed.

Lemma init_invariant : invariant (init e2_agent_new).2.
Proof.
  unfold init, invariant. unfold_agent.
  destruct open_socket; unfold_agent; [|by repeat split; try constructor].
  destruct sctp_subscribe_to_events; cbn [negb]; unfold_agent;
    [|by repeat split; try constructor].
  destruct bind_addr; cbn [negb]; unfold_agent; [|by repeat split; try constructor].
  destruct connect_to; cbn [negb]; unfold_agent; by repeat split; try constructor.
Qed.

(** What a step sends: nothing that is a Setup Request, or the one Setup
    Request of the run loop, which was due and is now pending. *)
Lemma step_emits s s' :
  invariant s -> step s s' ->
  exists l, emitted s' = emitted s ++ l
    ∧ (Forall (fun pdu => is_setup_request pdu = false) l
       ∨ (l = [(generate_setup_request (e2ap_ s)).1]
          ∧ send_setup_request (e2ap_ s) = true
          ∧ e2ap_ s' = (generate_setup_request (e2ap_ s)).2)).
Proof.
  intros (Hone & Hq & Hfirst & Hsetup) Hstep.
  destruct Hstep as [s s' Hth|s buf|s|s].
  - unfold thread_step in Hth. destruct (thread s) eqn:Hpc; try done.
    + destruct (running s).
      * injection Hth as <-.
        destruct (send_setup_request (e2ap_ s)) eqn:Hdue.
        -- destruct (run_thread_body_due s Hdue) as (_ & _ & _ & He & _ & Ht).
           eexists. unfold emitted. cbn. rewrite Ht, map_app. split; [done|].
           right. by rewrite He.
        -- rewrite (run_thread_body_not_due s Hdue). exists []. cbn.
           rewrite app_nil_r. split; [done|]. by left.
      * injection Hth as <-. exists []. rewrite app_nil_r. split; [done|]. by left.
    + unfold run_next_task in Hth.
      destruct (ric_rece_task_queue s) as [|t q] eqn:Hqueue; [done|].
      injection Hth as <-.
      destruct (run_task_effect t (set_task_queue q s)) as (e' & q' & tl & Heff & _ & _ & Hben).
      destruct Heff as (_ & _ & _ & _ & _ & Ht).
      exists (map tx_pdu tl). unfold emitted. cbn. rewrite Ht, map_app. split; [done|].
      left. apply Forall_fmap. apply Hben. by inversion Hq.
  - exists []. rewrite app_nil_r. split; [done|]. by left.
  - exists []. rewrite app_nil_r. split; [done|]. by left.
  - exists []. rewrite app_nil_r. split; [done|]. by left.
Qed.

Lemma step_invariant s s' : invariant s -> step s s' -> invariant s'.
Proof.
  intros Hinv Hstep. pose proof Hinv as (Hone & Hq & Hfirst & Hsetup).
  destruct Hstep as [s s' Hth|s buf|s|s].
  - unfold thread_step in Hth. destruct (thread s) eqn:Hpc; try done.
    + destruct (running s).
      * injection Hth as <-.
        destruct (send_setup_request (e2ap_ s)) eqn:Hdue.
        -- destruct (run_thread_body_due s Hdue) as (_ & _ & _ & He & Hq' & Ht).
           destruct (generate_setup_request_pending (e2ap_ s)) as (Hp & _ & Hpdu).
           unfold invariant, emitted. cbn. rewrite He, Hq', Ht, Hp, app_nil_r, map_app.
           rewrite (send_setup_request_no_pending _ Hdue).
           split_and!; [lia|done|by destruct (tx s)|].
           unfold emitted in Hsetup. destruct (tx s); [done|]. exact Hsetup.
        -- rewrite (run_thread_body_not_due s Hdue). unfold invariant. cbn.
           split_and!; [done..| |done].
           intros Hnil. destruct (Hfirst Hnil) as [_ Hfresh].
           apply fresh_due in Hfresh. congruence.
      * injection Hth as <-. unfold invariant. cbn. split_and!; [done..| |done].
        intros Hnil. by destruct (Hfirst Hnil).
    + unfold run_next_task in Hth.
      destruct (ric_rece_task_queue s) as [|t q] eqn:Hqueue; [done|].
      injection Hth as <-.
      destruct (run_task_effect t (set_task_queue q s))
        as (e' & q' & tl & Heff & Hp & Hq'' & _).
      destruct Heff as (_ & _ & _ & He & Hq' & Ht).
      assert (tx s ≠ []) as Hne by (intros Hnil; by destruct (Hfirst Hnil)).
      unfold invariant, emitted. cbn. rewrite He, Hq', Ht, map_app. cbn.
      split_and!.
      * cbn in Hp. lia.
      * apply Forall_app. split; [by inversion Hq|done].
      * intros Hnil. by apply app_eq_nil in Hnil as [? _].
      * apply first_is_setup_request_app; [|done]. by destruct (tx s).
  - unfold invariant. unfold_agent. split_and!; try done.
    apply Forall_app. split; [done|]. by repeat constructor.
  - unfold invariant, tic. unfold_agent. split_and!; try done.
    + pose proof (timers_step_pending (e2ap_ s)). lia.
    + intros Hnil. destruct (Hfirst Hnil). split; [done|]. by apply fresh_timers_step.
  - unfold invariant. unfold_agent. by split_and!.
Qed.

Lemma reachable_invariant s : reachable s -> invariant s.
Proof.
  unfold reachable. intros Hreach.
  refine (rtc_ind_r (fun s => invariant s) _ init_invariant _ _ Hreach).
  intros y z _ Hstep Hy. by eapply step_invariant.
Qed.

(** **** The receive path *)

(** C2. Bytes that fail to decode are logged and dropped: the receive
    handler writes the error line and returns [false]; nothing of the agent
    but the lines written changes, so the session state, the task queue, the
    history of sends, [running] and the transport are as before. *)
Theorem undecodable_bytes_are_logged_and_dropped (buf : byte_buffer) s :
  unpack buf = None ->
  (handle_e2_rx_msg buf s).1 = false
  ∧ logger (handle_e2_rx_msg buf s).2
    = logger s ++ [(stdout, "E2_AGENT: Received %d bytes from %s\n");
                   (log_error, "Failed to unpack RX E2 PDU")]
  ∧ same_but_log s (handle_e2_rx_msg buf s).2
  ∧ e2ap_ (handle_e2_rx_msg buf s).2 = e2ap_ s
  ∧ lifecycle (handle_e2_rx_msg buf s).2 = lifecycle s
  ∧ running (handle_e2_rx_msg buf s).2 = running s
  ∧ ric_socket (handle_e2_rx_msg buf s).2 = ric_socket s.
Proof.
  intros Hbad. rewrite (handle_e2_rx_msg_undecoded buf s Hbad). by split_and!.
Qed.

Ltac solve_same_but_log :=
  unfold same_but_log; unfold_agent; case_e2ap; try reflexivity.

(** C5. A decoded message is classified by its envelope and routed by its
    procedure to the handler [route] names: the agent ends in the state that
    handler leaves, lines written apart. A message that has no handler
    (unknown or unimplemented envelope or procedure) is logged and dropped:
    only lines are written. In every case the dispatch returns [true] and
    leaves [running], the transport and the thread as they are. *)
Theorem dispatch_routes_by_envelope_and_procedure (buf : byte_buffer) pdu_c s :
  unpack buf = Some pdu_c ->
  (handle_e2_rx_msg buf s).1 = true
  ∧ match route pdu_c with
    | Some handler => same_but_log (handle_e2_rx_msg buf s).2 (handler s).2
    | None =>
        same_but_log (handle_e2_rx_msg buf s).2 s
        ∧ exists lines, lines ≠ [] ∧ logger (handle_e2_rx_msg buf s).2 = logger s ++ lines
    end
  ∧ running (handle_e2_rx_msg buf s).2 = running s
  ∧ ric_socket (handle_e2_rx_msg buf s).2 = ric_socket s
  ∧ thread (handle_e2_rx_msg buf s).2 = thread s.
Proof.
  intros Hok.
  destruct (handle_e2_rx_msg_decoded buf pdu_c s Hok) as [(Hrun & Hsock & Hth & _) Hret].
  split; [done|]. split; [|done].
  unfold handle_e2_rx_msg. rewrite Hok.
  destruct pdu_c as [[]|[]|[]|]; cbn [route];
    unfold handle_e2_init_msg, handle_e2_successful_outcome, handle_e2_unsuccessful_outcome,
      handle_ric_subscription_request, handle_ric_subscription_delete_request,
      handle_reset_request, handle_reset_response, handle_e2_setup_response, process_or_fail,
      process_reset_request;
    unfold_agent; rewrite ?call_e2ap_queueing_eq.
  all: try (split; [reflexivity|]; eexists; split; [|rewrite <- !app_assoc; reflexivity]; done).
  all: solve_same_but_log.
Qed.

(** **** Reset and subscription *)

Lemma lifecycle_established s :
  lifecycle s = Established <->
  is_open (ric_socket s) = true ∧ e2_established (e2ap_ s) = true.
Proof.
  unfold lifecycle.
  destruct (is_open (ric_socket s)), (e2_established (e2ap_ s)),
    (has_pending setup_procedure (e2ap_ s)); cbn; split; try done; by intros [? ?].
Qed.

(** The task a reset request queues sends one Reset Response, for the
    transaction last received, and nothing else. *)
Lemma send_reset_resp_sends_one s :
  let pdu := successful_outcome
               (reset_resp {| reset_resp_transaction_id := reset_id (e2ap_ s) |}) in
  effect s (run_task send_reset_resp s).2 (e2ap_ s) []
    [{| tx_pdu := pdu; tx_outcome := send_outcome_of (length (tx s)) pdu |}].
Proof.
  unfold run_task. rewrite M_bind_eq. unfold mret, M_ret. cbn [snd]. unfold send_e2_msg.
  apply (send_after_call_effect generate_reset_response s).
Qed.

(** A queued PDU is sent once when its task runs. *)
Lemma send_e2ap_pdu_task_sends_one pdu s :
  effect s (run_task (send_e2ap_pdu_task pdu) s).2 (e2ap_ s) []
    [{| tx_pdu := pdu; tx_outcome := send_outcome_of (length (tx s)) pdu |}].
Proof.
  unfold run_task. rewrite M_bind_eq. unfold mret, M_ret. cbn [snd].
  apply send_e2ap_pdu_effect.
Qed.

(** **** The run loop *)

(** C4. In every state an agent goes through there is at most one Pending
    Setup Procedure; while there is one, the guard of the run loop refuses a
    second attempt, and the body of the loop changes nothing: no Setup
    Request is built, registered or sent. *)
Theorem at_most_one_pending_setup s :
  reachable s ->
  (pending_setups (e2ap_ s) <= 1)%nat
  ∧ (has_pending setup_procedure (e2ap_ s) = true ->
     send_setup_request (e2ap_ s) = false ∧ run_thread_body s = (tt, s)).
Proof.
  intros Hreach. destruct (reachable_invariant s Hreach) as (Hone & _).
  split; [done|]. intros Hpending.
  pose proof (send_setup_request_pending _ Hpending) as Hdue.
  split; [done|]. by apply run_thread_body_not_due.
Qed.

(** **** Stopping *)

Lemma thread_step_frame s s' :
  thread_step s = Some s' -> running s' = running s ∧ ric_socket s' = ric_socket s.
Proof.
  unfold thread_step. destruct (thread s); try done.
  - destruct (running s) eqn:Hrun; intros [= <-]; cbn; [|done].
    destruct (send_setup_request (e2ap_ s)) eqn:Hdue.
    + by destruct (run_thread_body_due s Hdue) as (-> & -> & _).
    + by rewrite (run_thread_body_not_due s Hdue).
  - unfold run_next_task.
    destruct (ric_rece_task_queue s) as [|t q]; [done|]. intros [= <-]. cbn.
    by destruct (run_task_effect t (set_task_queue q s)) as (e' & q' & tl & (-> & -> & _) & _).
Qed.

Lemma run_thread_finished fuel s :
  thread s = thread_finished -> run_thread fuel s = Some s.
Proof. intros Hpc. destruct fuel; cbn; by rewrite bool_decide_eq_true_2. Qed.

Lemma run_thread_frame fuel s s' :
  run_thread fuel s = Some s' ->
  thread s' = thread_finished ∧ running s' = running s ∧ ric_socket s' = ric_socket s.
Proof.
  revert s. induction fuel as [|fuel IH]; intros s; cbn [run_thread]; case_bool_decide as Hpc.
  - by intros [= <-].
  - done.
  - by intros [= <-].
  - destruct (thread_step s) as [s1|] eqn:Hstep; [|done]. cbn.
    intros Hrun. destruct (IH s1 Hrun) as (-> & -> & ->).
    by destruct (thread_step_frame s s1 Hstep) as [-> ->].
Qed.

Lemma set_running_same s : set_running (running s) s = s.
Proof. by destruct s. Qed.

Lemma close_close sock : close (close sock) = close sock.
Proof. unfold close. by destruct (is_open sock) eqn:Hopen; [|rewrite Hopen]. Qed.

Lemma close_not_open sock : is_open (close sock) = false.
Proof. unfold close. by destruct (is_open sock) eqn:Hopen. Qed.

(** [stop] returns at once when the thread is about to test [running]. *)
Lemma stop_at_while fuel s :
  thread s = at_while ->
  stop (S (S fuel)) s = Some (set_thread thread_finished (set_running false s)).
Proof.
  intros Hpc. unfold stop, wait_thread_finish. cbn [thread set_running]. rewrite Hpc.
  cbn [run_thread]. rewrite bool_decide_eq_false_2 by (cbn; congruence).
  unfold thread_step. cbn [thread set_running running]. rewrite Hpc. cbn.
  done.
Qed.

(** C7, as the code has it. Stopping is idempotent: once [stop] has
    returned, a second [stop] returns at once and leaves the agent as it is;
    [running] is [false]. [stop] does not touch the transport endpoint,
    which is as open after it as before; closing the endpoint, where it is
    done, leaves it closed, and closing it again changes nothing. *)
Theorem stop_is_idempotent_and_keeps_the_socket fuel s s' :
  stop fuel s = Some s' ->
  (forall fuel', stop fuel' s' = Some s')
  ∧ running s' = false
  ∧ ric_socket s' = ric_socket s
  ∧ is_open (close (ric_socket s')) = false
  ∧ close (close (ric_socket s')) = close (ric_socket s').
Proof.
  unfold stop, wait_thread_finish. cbn [thread set_running]. intros Hstop.
  assert (running s' = false ∧ ric_socket s' = ric_socket s
          ∧ (thread s' = thread_not_started ∨ thread s' = thread_finished))
    as (Hrun & Hsock & Hpc).
  { destruct (thread s) eqn:Hth.
    1: { injection Hstop as <-. cbn. auto. }
    all: by destruct (run_thread_frame _ _ _ Hstop) as (-> & -> & ?); auto. }
  split_and!; [|done..|apply close_not_open|apply close_close].
  intros fuel'. rewrite <- Hrun, set_running_same.
  destruct Hpc as [->| Hpc]; [done|]. rewrite Hpc. by apply run_thread_finished.
Qed.

(** **** Errors *)

(** C8, as the code has it. The errors of the agent are handled where they
    occur: whatever task runs (bytes that do not decode, an unknown message,
    a handler that fails, a send that fails), the agent keeps running, with
    its transport and its thread as they were, and a failed send leaves the
    session untouched. The checked read of the choice type is not of that
    kind: [get<T>] returns the value when [T] is held and throws
    [bad_choice_access] when it is not; [get_if<T>] gives a null pointer in
    that case. *)
Theorem errors_stay_local_and_get_throws (t : task) (pdu : e2_ap_pdu_c) s
    (Args : list choice_details.cpp_type) (T : choice_details.cpp_type)
    (c : @choice_details.tagged_union_t string) :
  (running (run_task t s).2 = running s
   ∧ ric_socket (run_task t s).2 = ric_socket s
   ∧ thread (run_task t s).2 = thread s)
  ∧ (e2ap_ (send_e2ap_pdu pdu s).2 = e2ap_ s
     ∧ running (send_e2ap_pdu pdu s).2 = running s
     ∧ ric_socket (send_e2ap_pdu pdu s).2 = ric_socket s)
  ∧ (choice_details.is_ Args T c = true ->
     choice_details.get Args T c = inl (choice_details.buffer c))
  ∧ (choice_details.is_ Args T c = false ->
     choice_details.get Args T c = inr (choice_details.bad_choice_access_what "in get<T>")
     ∧ choice_details.get_if Args T c = None).
Proof.
  split_and!.
  - by destruct (run_task_effect t s) as (e' & q & tl & (-> & _) & _).
  - by destruct (run_task_effect t s) as (e' & q & tl & (_ & -> & _) & _).
  - by destruct (run_task_effect t s) as (e' & q & tl & (_ & _ & -> & _) & _).
  - by destruct (send_e2ap_pdu_effect pdu s) as (_ & _ & _ & -> & _).
  - by destruct (send_e2ap_pdu_effect pdu s) as (-> & _).
  - by destruct (send_e2ap_pdu_effect pdu s) as (_ & -> & _).
  - unfold choice_details.get. by intros ->.
  - unfold choice_details.get, choice_details.get_if. by intros ->.
Qed.

(** **** More on the send path *)

Lemma send_e2ap_pdu_reports_the_outcome_aux pdu s :
  (send_e2ap_pdu pdu s).1 = bool_decide (send_outcome_of (length (tx s)) pdu = sctp_sent).
Proof.
  unfold send_e2ap_pdu, send_sctp, send_outcome_of. unfold_agent.
  destruct (make_byte_buffer _); cbn [negb]; unfold_agent; [|done].
  destruct (pack pdu) as [buf|]; unfold_agent; [|done].
  by destruct (sctp_sendmsg _ buf); cbn [negb]; unfold_agent.
Qed.

(** X17. [send_e2ap_pdu] returns [true] exactly when a buffer was at hand,
    the PDU was packed and the socket took the bytes; in every case it is
    one outbound operation, recorded with how it ended, and the session,
    the task queue, [running] and the transport are left alone. *)
Theorem send_e2ap_pdu_reports_the_outcome pdu s :
  ((send_e2ap_pdu pdu s).1 = true <->
   make_byte_buffer (length (tx s)) = true
   ∧ exists buf, pack pdu = Some buf ∧ sctp_sendmsg (length (tx s)) buf = true)
  ∧ (send_e2ap_pdu pdu s).1 = bool_decide (send_outcome_of (length (tx s)) pdu = sctp_sent)
  ∧ effect s (send_e2ap_pdu pdu s).2 (e2ap_ s) []
      [{| tx_pdu := pdu; tx_outcome := send_outcome_of (length (tx s)) pdu |}].
Proof.
  split_and!; [| |apply send_e2ap_pdu_effect].
  - unfold send_e2ap_pdu, send_sctp. unfold_agent.
    destruct (make_byte_buffer _); cbn [negb]; unfold_agent;
      [|split; [done|by intros [? _]]].
    destruct (pack pdu) as [buf|]; unfold_agent;
      [|split; [done|by intros (_ & buf' & ? & _)]].
    destruct (sctp_sendmsg _ buf) eqn:Hsend; cbn [negb]; unfold_agent.
    + split; [|done]. intros _. split; [done|]. by exists buf.
    + split; [done|]. intros (_ & buf' & [= <-] & Hsend'). congruence.
  - apply send_e2ap_pdu_reports_the_outcome_aux.
Qed.

(** X18. [send_e2_msg] is one outbound operation for a Setup Request, a
    Reset Request and a Reset Response, and none for any other message
    type, for which it returns [false] and leaves the session as it is. It
    never touches the task queue, [running] or the transport. *)
Theorem send_e2_msg_sends_at_most_once (msg_type : e2_msg_type_t) s :
  length (tx (send_e2_msg msg_type s).2)
  = (length (tx s) + match msg_type with E2_other_msg_type _ => 0 | _ => 1 end)%nat
  ∧ match msg_type with
    | E2_other_msg_type _ =>
        (send_e2_msg msg_type s).1 = false ∧ same_but_log s (send_e2_msg msg_type s).2
    | _ => (send_e2_msg msg_type s).1
           = bool_decide (tx_outcome <$> last (tx (send_e2_msg msg_type s).2) = Some sctp_sent)
    end
  ∧ ric_rece_task_queue (send_e2_msg msg_type s).2 = ric_rece_task_queue s
  ∧ running (send_e2_msg msg_type s).2 = running s
  ∧ ric_socket (send_e2_msg msg_type s).2 = ric_socket s.
Proof.
  assert (forall (g : e2ap -> e2_ap_pdu_c * e2ap),
            let r := (send_pdu ← call_e2ap g; send_e2ap_pdu send_pdu) s in
            length (tx r.2) = (length (tx s) + 1)%nat
            ∧ r.1 = bool_decide (tx_outcome <$> last (tx r.2) = Some sctp_sent)
            ∧ ric_rece_task_queue r.2 = ric_rece_task_queue s
            ∧ running r.2 = running s ∧ ric_socket r.2 = ric_socket s) as Hsend.
  { intros g. cbv zeta.
    destruct (send_after_call_effect g s) as (Hrun & Hsock & _ & _ & Hq & Ht).
    rewrite Ht, length_app, last_snoc, app_nil_r in *. cbn [length fmap option_fmap option_map].
    split_and!; try done.
    rewrite M_bind_eq. unfold call_e2ap. destruct (g (e2ap_ s)) as [pdu e']. cbn [fst snd].
    rewrite (send_e2ap_pdu_reports_the_outcome_aux pdu (set_e2ap e' s)).
    cbn [tx set_e2ap tx_outcome].
    apply bool_decide_ext. split; [by intros ->|by intros [= ->]]. }
  destruct msg_type; unfold send_e2_msg.
  - by destruct (Hsend generate_setup_request) as (? & ? & ? & ? & ?).
  - by destruct (Hsend generate_reset_request) as (? & ? & ? & ? & ?).
  - by destruct (Hsend generate_reset_response) as (? & ? & ? & ? & ?).
  - unfold_agent. rewrite Nat.add_0_r. done.
Qed.

(** **** More on [init] *)

(** X19. [init] on a new agent starts the thread, with [running] set,
    exactly when the socket could be opened, subscribed to its events,
    bound and connected; otherwise the thread is not started and [running]
    stays [false]. Either way nothing is sent, no task is queued and the
    session is the new one. *)
Theorem init_starts_the_thread_iff :
  let s := (init e2_agent_new).2 in
  (thread s = at_while <->
   is_Some open_socket ∧ sctp_subscribe_to_events = true ∧ bind_addr = true
   ∧ connect_to = true)
  ∧ (thread s = at_while ∨ thread s = thread_not_started)
  ∧ (running s = true <-> thread s = at_while)
  ∧ tx s = [] ∧ ric_rece_task_queue s = [] ∧ e2ap_ s = e2ap_init.
Proof.
  unfold init. unfold_agent.
  destruct open_socket as [fd|], sctp_subscribe_to_events, bind_addr, connect_to;
    cbn [negb]; unfold_agent.
  all: split_and!; try done; try (by left); try (by right).
  all: split; [intros Hpc; try done; split_and!; by eauto
              |intros ([? ?] & ? & ? & ?); done].
Qed.

(** X20. What [init] leaves of the socket when it fails: nothing is opened
    when opening fails; the socket is closed again when subscribing or
    binding fails; it is left open, with no thread started, when connecting
    fails. *)
Theorem init_failure_and_the_socket :
  let s := (init e2_agent_new).2 in
  match open_socket with
  | None => ric_socket s = ric_socket e2_agent_new
  | Some fd =>
      if sctp_subscribe_to_events && bind_addr
      then ric_socket s = {| sockfd := fd |}
           ∧ (connect_to = false -> thread s = thread_not_started ∧ running s = false)
      else ric_socket s = close {| sockfd := fd |} ∧ thread s = thread_not_started
  end.
Proof.
  unfold init. unfold_agent.
  destruct open_socket as [fd|]; unfold_agent; [|done].
  destruct sctp_subscribe_to_events; cbn [negb andb]; unfold_agent; [|done].
  destruct bind_addr; cbn [negb]; unfold_agent; [|done].
  destruct connect_to; cbn [negb]; unfold_agent; done.
Qed.

(** **** More on the receive path *)

(** X21. The result of [handle_e2_rx_msg] tells whether the bytes decoded,
    and nothing else: it is [true] for every decoded message, whatever the
    handler it is routed to returns. *)
Theorem handle_e2_rx_msg_result (buf : byte_buffer) s :
  (handle_e2_rx_msg buf s).1 = bool_decide (is_Some (unpack buf)).
Proof.
  destruct (unpack buf) as [pdu_c|] eqn:Hbuf.
  - destruct (handle_e2_rx_msg_decoded buf pdu_c s Hbuf) as [_ ->].
    symmetry. by apply bool_decide_eq_true_2.
  - rewrite (handle_e2_rx_msg_undecoded buf s Hbuf). cbn [fst].
    symmetry. apply bool_decide_eq_false_2. by intros [? ?].
Qed.

(** X22. The dispatchers of initiating messages and of successful outcomes
    return [true] for every message, also when the handler they call
    returns [false]; the dispatcher of unsuccessful outcomes returns
    [false] exactly when the call it makes into [e2ap_] reports a failure,
    and [true] for a message it has no branch for. *)
Theorem dispatcher_results s :
  (forall value, (handle_e2_init_msg value s).1 = true)
  ∧ (forall value, (handle_e2_successful_outcome value s).1 = true)
  ∧ (forall value,
       (handle_e2_unsuccessful_outcome value s).1
       = match value with
         | e2setup_fail r => negb (truthy (process_e2_setup_failure r (e2ap_ s)).1)
         | e2node_cfg_upd_fail id =>
             negb (truthy (process_e2_node_config_update_failure id (e2ap_ s)).1)
         | ricservice_upd_fail id =>
             negb (truthy (process_ric_service_update_failure id (e2ap_ s)).1)
         | e2_removal_fail id => negb (truthy (process_e2_removal_failure id (e2ap_ s)).1)
         | ricsubscription_fail _ | unsuccessful_outcome_other _ => true
         end).
Proof.
  split_and!.
  - intros value. unfold handle_e2_init_msg. destruct value; rewrite ?M_bind_eq; done.
  - intros value. unfold handle_e2_successful_outcome.
    destruct value; rewrite ?M_bind_eq; done.
  - intros value. unfold handle_e2_unsuccessful_outcome, process_or_fail.
    destruct value; unfold_agent; try done.
    all: match goal with
         | |- context [let '(_, _) := ?f ?r (e2ap_ ?s0) in _] =>
             destruct (f r (e2ap_ s0)) as [rc e']
         end; cbn [fst]; by destruct (truthy rc).
Qed.

(** X23. PDUs queued through [queue_send_e2ap_pdu] are sent in the order
    they were queued: each call returns [true] and sends nothing; the
    scheduler then runs the tasks oldest first, and each is one outbound
    operation. *)
Theorem queued_pdus_are_sent_in_order (pdu1 pdu2 : e2_ap_pdu_c) s :
  ric_rece_task_queue s = [] ->
  let s1 := (queue_send_e2ap_pdu pdu1 s).2 in
  let s2 := (queue_send_e2ap_pdu pdu2 s1).2 in
  (queue_send_e2ap_pdu pdu1 s).1 = true
  ∧ (queue_send_e2ap_pdu pdu2 s1).1 = true
  ∧ tx s2 = tx s
  ∧ ric_rece_task_queue s2 = [send_e2ap_pdu_task pdu1; send_e2ap_pdu_task pdu2]
  ∧ exists s3 s4,
      run_next_task s2 = Some s3 ∧ run_next_task s3 = Some s4
      ∧ emitted s3 = emitted s ++ [pdu1]
      ∧ emitted s4 = emitted s ++ [pdu1; pdu2]
      ∧ ric_rece_task_queue s4 = [].
Proof.
  intros Hempty s1 s2.
  assert (ric_rece_task_queue s2 = [send_e2ap_pdu_task pdu1; send_e2ap_pdu_task pdu2]
          ∧ tx s2 = tx s) as [Hq Ht].
  { unfold s2, s1, queue_send_e2ap_pdu. unfold_agent. by rewrite Hempty. }
  split_and!; try done.
  unfold run_next_task. rewrite Hq. eexists _, _. split; [done|].
  destruct (send_e2ap_pdu_task_sends_one pdu1
              (set_task_queue [send_e2ap_pdu_task pdu2] s2)) as (_ & _ & _ & _ & Hq3 & Ht3).
  cbn [ric_rece_task_queue set_task_queue tx] in Hq3, Ht3. rewrite Hq3. cbn [app].
  split; [done|].
  destruct (send_e2ap_pdu_task_sends_one pdu2
              (set_task_queue []
                 (run_task (send_e2ap_pdu_task pdu1)
                    (set_task_queue [send_e2ap_pdu_task pdu2] s2)).2))
    as (_ & _ & _ & _ & Hq4 & Ht4).
  cbn [ric_rece_task_queue set_task_queue tx] in Hq4, Ht4.
  unfold emitted. rewrite Hq4, Ht4, Ht3, Ht, !map_app, <- app_assoc. done.
Qed.

(** **** More on the run loop and on stopping *)

(** X24. When a Setup Request is due, the body of the run loop makes one
    outbound operation and prints that the request was sent, whatever the
    outcome of the send: the result of [send_e2_msg] is not looked at. *)
Theorem run_loop_prints_sent_whatever_the_outcome s :
  send_setup_request (e2ap_ s) = true ->
  last (logger (run_thread_body s).2) = Some (stdout, "e2 setup request sent\n")
  ∧ length (tx (run_thread_body s).2) = S (length (tx s))
  ∧ ric_rece_task_queue (run_thread_body s).2 = ric_rece_task_queue s.
Proof.
  intros Hdue. destruct (run_thread_body_due s Hdue) as (_ & _ & _ & _ & Hq & Ht).
  rewrite Ht, Hq, length_app, app_nil_r. cbn [length]. split_and!; [|lia|done].
  unfold run_thread_body. rewrite M_bind_eq. unfold gets at 1 2. cbn [fst snd].
  rewrite Hdue, M_bind_eq. unfold log at 1. unfold_agent. apply last_snoc.
Qed.

(** X25. What [stop] leaves behind when it returns. A thread about to test
    [running] returns at once. A thread about to run a task runs that one
    task, the oldest, and then returns: the tasks behind it are neither run
    nor discarded, they stay in the queue. *)
Theorem stop_runs_at_most_one_task fuel s s' :
  stop fuel s = Some s' ->
  match thread s with
  | thread_not_started => s' = set_running false s
  | at_while | thread_finished => s' = set_thread thread_finished (set_running false s)
  | at_run_next_task =>
      exists t q,
        ric_rece_task_queue s = t :: q
        ∧ s' = set_thread thread_finished
                 (run_task t (set_task_queue q (set_running false s))).2
        ∧ exists pushed, ric_rece_task_queue s' = q ++ pushed
  end.
Proof.
  unfold stop, wait_thread_finish. cbn [thread set_running].
  destruct (thread s) eqn:Hpc.
  - by intros [= <-].
  - destruct fuel as [|fuel]; cbn [run_thread];
      rewrite bool_decide_eq_false_2 by (cbn; congruence); [done|].
    unfold thread_step. cbn [thread set_running running]. rewrite Hpc. cbn [mbind option_bind].
    rewrite run_thread_finished by done. by intros [= <-].
  - destruct fuel as [|fuel]; cbn [run_thread];
      rewrite bool_decide_eq_false_2 by (cbn; congruence); [done|].
    unfold thread_step, run_next_task. cbn [thread set_running ric_rece_task_queue]. rewrite Hpc.
    destruct (ric_rece_task_queue s) as [|t q] eqn:Hq; [done|].
    cbn [fmap option_fmap option_map mbind option_bind].
    destruct (run_task_effect t (set_task_queue q (set_running false s)))
      as (e' & pushed & tl & (Hrun & _ & Hth & _ & Hq' & _) & _).
    cbn [running set_task_queue set_running thread ric_rece_task_queue] in Hrun, Hth, Hq'.
    destruct fuel as [|fuel]; cbn [run_thread];
      rewrite bool_decide_eq_false_2 by (cbn; congruence); [done|].
    unfold thread_step. cbn [thread set_thread running]. rewrite Hrun.
    cbn [mbind option_bind]. rewrite run_thread_finished by done. intros [= <-].
    exists t, q. split; [done|]. split.
    + unfold set_thread. cbn. done.
    + exists pushed. cbn. exact Hq'.
  - rewrite run_thread_finished by done. intros [= <-].
    unfold set_thread, set_running. cbn. by rewrite Hpc.
Qed.

(** **** Every reply is accounted for *)

Lemma count_if_app {A : Type} (f : A -> bool) (l l' : list A) :
  count_if f (l ++ l') = (count_if f l + count_if f l')%nat.
Proof. unfold count_if. by rewrite filter_app, length_app. Qed.

Lemma count_if_cons {A : Type} (f : A -> bool) (x : A) (l : list A) :
  count_if f (x :: l) = ((if f x then 1 else 0) + count_if f l)%nat.
Proof.
  unfold count_if. rewrite filter_cons. destruct (f x); by case_decide.
Qed.

Lemma count_if_snoc {A : Type} (f : A -> bool) (l : list A) (x : A) :
  count_if f (l ++ [x]) = (count_if f l + (if f x then 1 else 0))%nat.
Proof.
  rewrite count_if_app, count_if_cons. change (count_if f []) with 0%nat. lia.
Qed.

Section accounting.

(** A kind of PDU, and the tasks that send a PDU of that kind. *)
Variable kp : e2_ap_pdu_c -> bool.
Variable kt : task -> bool.
Hypothesis kt_rx : forall buf : byte_buffer, kt (rx_task buf) = false.
Hypothesis kt_send : forall pdu, kt (send_e2ap_pdu_task pdu) = kp pdu.
Hypothesis kt_reset : forall id,
  kt send_reset_resp = kp (successful_outcome (reset_resp {| reset_resp_transaction_id := id |})).
Hypothesis kp_setup : forall r, kp (init_msg (e2setup_request r)) = false.

(** A step of the thread changes what is accounted for, sent or waiting in
    the queue, by the tasks the message it handles queues, and by nothing
    else: a task that sends turns into one outbound operation of its
    kind. *)
Lemma thread_step_accounted s s' :
  thread_step s = Some s' ->
  (count_if kp (emitted s') + count_if kt (ric_rece_task_queue s')
   = count_if kp (emitted s) + count_if kt (ric_rece_task_queue s)
     + from_option (fun pdu_c => count_if kt (session_rx pdu_c (e2ap_ s)).2) 0 (handles s))%nat.
Proof.
  unfold thread_step, handles, emitted. destruct (thread s) eqn:Hpc; try done.
  - destruct (running s); intros [= <-]; cbn [from_option tx ric_rece_task_queue set_thread];
      [|lia].
    destruct (send_setup_request (e2ap_ s)) eqn:Hdue.
    + destruct (run_thread_body_due s Hdue) as (_ & _ & _ & _ & Hq & Ht).
      rewrite Hq, Ht, app_nil_r, map_app; cbn [map]; rewrite count_if_snoc.
      cbn [generate_setup_request fst tx_pdu]. rewrite kp_setup. lia.
    + rewrite (run_thread_body_not_due s Hdue). cbn [snd]. lia.
  - unfold run_next_task. destruct (ric_rece_task_queue s) as [|t q] eqn:Hq; [done|].
    intros [= <-]. cbn [tx ric_rece_task_queue set_thread]. rewrite count_if_cons.
    destruct t as [buf| |pdu].
    + rewrite kt_rx. unfold run_task. rewrite M_bind_eq. unfold mret, M_ret. cbn [snd].
      destruct (unpack buf) as [pdu_c|] eqn:Hbuf; cbn [from_option].
      * destruct (handle_e2_rx_msg_decoded buf pdu_c (set_task_queue q s) Hbuf)
          as [(_ & _ & _ & _ & Hq' & Ht) _].
        rewrite app_nil_r in Ht. cbn [tx ric_rece_task_queue set_task_queue e2ap_] in Hq', Ht.
        rewrite Hq', Ht, count_if_app. lia.
      * rewrite (handle_e2_rx_msg_undecoded buf _ Hbuf).
        cbn [snd tx ric_rece_task_queue set_logger set_task_queue]. lia.
    + cbn [from_option].
      destruct (send_reset_resp_sends_one (set_task_queue q s)) as (_ & _ & _ & _ & Hq' & Ht).
      cbn [tx ric_rece_task_queue set_task_queue e2ap_] in Hq', Ht.
      rewrite Hq', Ht, app_nil_r, map_app; cbn [map]; rewrite count_if_snoc. cbn [tx_pdu].
      rewrite <- kt_reset. lia.
    + cbn [from_option].
      destruct (send_e2ap_pdu_task_sends_one pdu (set_task_queue q s))
        as (_ & _ & _ & _ & Hq' & Ht).
      cbn [tx ric_rece_task_queue set_task_queue e2ap_] in Hq', Ht.
      rewrite Hq', Ht, app_nil_r, map_app; cbn [map]; rewrite count_if_snoc. cbn [tx_pdu].
      rewrite kt_send. lia.
Qed.

(** The arrival of bytes, a tick and the write of [running] change
    nothing of it. *)
Lemma other_events_accounted s (buf : byte_buffer) :
  let n := (count_if kp (emitted s) + count_if kt (ric_rece_task_queue s))%nat in
  (count_if kp (emitted (push (rx_task buf) s).2)
   + count_if kt (ric_rece_task_queue (push (rx_task buf) s).2))%nat = n
  ∧ (count_if kp (emitted (tic s).2) + count_if kt (ric_rece_task_queue (tic s).2))%nat = n
  ∧ (count_if kp (emitted (set_running false s))
     + count_if kt (ric_rece_task_queue (set_running false s)))%nat = n.
Proof.
  cbv zeta. split_and!; [|done..]. unfold emitted. unfold_agent.
  rewrite count_if_snoc, kt_rx. lia.
Qed.

End accounting.

(** The tasks the handling of a message queues: one that sends a Reset
    Response for a Reset Request and for nothing else, one that sends the
    reply to a Subscription Request for a Subscription Request and for
    nothing else. *)
Lemma session_rx_queues pdu_c e :
  count_if sends_reset_response (session_rx pdu_c e).2
  = (if is_reset_request pdu_c then 1 else 0)%nat
  ∧ count_if sends_subscription_reply (session_rx pdu_c e).2
    = (if is_subscription_request pdu_c then 1 else 0)%nat.
Proof.
  destruct pdu_c as [[]|[]|[]|]; cbn [session_rx snd is_reset_request is_subscription_request];
    try done.
  - unfold process_subscription_request. by destruct (admitted_actions r).
  - unfold process_subscription_delete_request. by destruct (subscriptions e !! _).
Qed.

(** What a step of the thread does to the Reset Responses and to the
    replies to Subscription Requests that are accounted for. *)
Lemma replies_accounted_step s s' :
  thread_step s = Some s' ->
  reset_responses s'
  = (reset_responses s + (if handles_a is_reset_request s then 1 else 0))%nat
  ∧ subscription_replies s'
    = (subscription_replies s + (if handles_a is_subscription_request s then 1 else 0))%nat.
Proof.
  intros Hstep. unfold reset_responses, subscription_replies, handles_a. split.
  - rewrite (thread_step_accounted is_reset_response sends_reset_response) with (s := s)
      by done.
    destruct (handles s) as [pdu_c|]; cbn [from_option]; [|done].
    by destruct (session_rx_queues pdu_c (e2ap_ s)) as [-> _].
  - rewrite (thread_step_accounted is_subscription_reply sends_subscription_reply)
      with (s := s) by done.
    destruct (handles s) as [pdu_c|]; cbn [from_option]; [|done].
    by destruct (session_rx_queues pdu_c (e2ap_ s)) as [_ ->].
Qed.

(** What the other events do to them: nothing. *)
Lemma replies_accounted_other s (buf : byte_buffer) :
  (reset_responses (push (rx_task buf) s).2 = reset_responses s
   ∧ reset_responses (tic s).2 = reset_responses s
   ∧ reset_responses (set_running false s) = reset_responses s)
  ∧ (subscription_replies (push (rx_task buf) s).2 = subscription_replies s
     ∧ subscription_replies (tic s).2 = subscription_replies s
     ∧ subscription_replies (set_running false s) = subscription_replies s).
Proof.
  split.
  - by apply (other_events_accounted is_reset_response sends_reset_response).
  - by apply (other_events_accounted is_subscription_reply sends_subscription_reply).
Qed.

(** **** A request from its arrival to its reply *)

(** The head of the loop leaves [running], the transport and the task
    queue alone. *)
Lemma run_thread_body_frame s :
  running (run_thread_body s).2 = running s
  ∧ ric_socket (run_thread_body s).2 = ric_socket s
  ∧ ric_rece_task_queue (run_thread_body s).2 = ric_rece_task_queue s.
Proof.
  destruct (send_setup_request (e2ap_ s)) eqn:Hdue.
  - destruct (run_thread_body_due s Hdue) as (-> & -> & _ & _ & -> & _).
    by rewrite app_nil_r.
  - by rewrite (run_thread_body_not_due s Hdue).
Qed.

Lemma steps_to_turn_at_while ahead s :
  thread s = at_while -> steps_to_turn ahead s = (2 * ahead + 1)%nat.
Proof. intros Hpc. unfold steps_to_turn. by rewrite bool_decide_eq_true_2. Qed.

Lemma steps_to_turn_at_run_next_task ahead s :
  thread s = at_run_next_task -> steps_to_turn ahead s = (2 * ahead)%nat.
Proof.
  intros Hpc. unfold steps_to_turn. rewrite bool_decide_eq_false_2 by congruence. lia.
Qed.

(** Every event of a run is a step of the agent. *)
Lemma run_events_steps evs s s' : run_events evs s = Some s' -> rtc step s s'.
Proof.
  revert s. induction evs as [|ev evs IH]; intros s; cbn [run_events].
  - intros [= <-]. apply rtc_refl.
  - destruct (run_event ev s) as [s1|] eqn:Hev; [|done]. cbn. intros Hrun.
    eapply rtc_l; [|by apply IH]. destruct ev; cbn in Hev.
    + by apply step_thread.
    + injection Hev as <-. apply step_rx.
    + injection Hev as <-. apply step_tic.
Qed.

(** The queue is served first in, first out: while the agent is not
    stopped, a queued task is at the head of the queue, with the thread
    about to run it, once the thread has taken the steps the tasks ahead of
    it ask for; arrivals queue behind it and ticks do not touch the
    queue. *)
Lemma task_reaches_the_head evs : forall s pre t post,
  running s = true ->
  thread s = at_while ∨ thread s = at_run_next_task ->
  ric_rece_task_queue s = pre ++ t :: post ->
  thread_events evs = steps_to_turn (length pre) s ->
  exists s' more,
    run_events evs s = Some s'
    ∧ running s' = true ∧ ric_socket s' = ric_socket s
    ∧ thread s' = at_run_next_task
    ∧ ric_rece_task_queue s' = t :: post ++ more.
Proof.
  unfold thread_events.
  induction evs as [|ev evs IH]; intros s pre t post Hrun Hpc Hq Hn.
  - cbn [filter list_filter length] in Hn.
    destruct Hpc as [Hpc|Hpc];
      [rewrite (steps_to_turn_at_while _ _ Hpc) in Hn; lia|].
    rewrite (steps_to_turn_at_run_next_task _ _ Hpc) in Hn.
    destruct pre as [|p pre]; [|cbn in Hn; lia].
    exists s, []. rewrite app_nil_r. done.
  - destruct ev as [|buf|]; cbn [run_events run_event].
    + rewrite filter_cons_True in Hn by done. cbn [length] in Hn.
      unfold thread_step. destruct Hpc as [Hpc|Hpc]; rewrite Hpc.
      * rewrite (steps_to_turn_at_while _ _ Hpc) in Hn.
        rewrite Hrun. cbn [mbind option_bind].
        destruct (run_thread_body_frame s) as (Hr & Hs & Hq').
        destruct (IH (set_thread at_run_next_task (run_thread_body s).2) pre t post)
          as (s' & more & Hev & Hr' & Hs' & Hpc' & Hq'').
        -- cbn. by rewrite Hr.
        -- by right.
        -- cbn. by rewrite Hq'.
        -- rewrite steps_to_turn_at_run_next_task by done. lia.
        -- exists s', more. cbn in Hs'. rewrite Hs' , Hs. done.
      * rewrite (steps_to_turn_at_run_next_task _ _ Hpc) in Hn.
        destruct pre as [|p pre]; [cbn in Hn; lia|].
        unfold run_next_task. rewrite Hq. cbn [app fmap option_fmap option_map mbind option_bind].
        destruct (run_task_effect p (set_task_queue (pre ++ t :: post) s))
          as (e' & q' & tl & (Hr & Hs & _ & _ & Hq' & _) & _).
        cbn [running ric_socket ric_rece_task_queue set_task_queue] in Hr, Hs, Hq'.
        destruct (IH (set_thread at_while
                        (run_task p (set_task_queue (pre ++ t :: post) s)).2)
                    pre t (post ++ q'))
          as (s' & more & Hev & Hr' & Hs' & Hpc' & Hq'').
        -- cbn. by rewrite Hr.
        -- by left.
        -- cbn. by rewrite Hq', <- app_assoc.
        -- rewrite steps_to_turn_at_while by done. cbn [length] in Hn. lia.
        -- exists s', (q' ++ more). cbn in Hs'. rewrite Hs', Hs, app_assoc. done.
    + rewrite filter_cons_False in Hn by done. cbn [mbind option_bind].
      destruct (IH (push (rx_task buf) s).2 pre t (post ++ [rx_task buf]))
        as (s' & more & Hev & Hr' & Hs' & Hpc' & Hq''); try done.
      * unfold_agent. by rewrite Hq, <- app_assoc.
      * exists s', ([rx_task buf] ++ more). rewrite app_assoc. done.
    + rewrite filter_cons_False in Hn by done. cbn [mbind option_bind].
      destruct (IH (tic s).2 pre t post)
        as (s' & more & Hev & Hr' & Hs' & Hpc' & Hq''); try done.
      exists s', more. done.
Qed.


(** The step of the thread that runs the task of received bytes that
    decode. *)
Lemma thread_step_handles (buf : byte_buffer) pdu_c q s :
  thread s = at_run_next_task ->
  ric_rece_task_queue s = rx_task buf :: q ->
  unpack buf = Some pdu_c ->
  exists s',
    thread_step s = Some s'
    ∧ thread s' = at_while ∧ running s' = running s ∧ ric_socket s' = ric_socket s
    ∧ e2ap_ s' = (session_rx pdu_c (e2ap_ s)).1
    ∧ ric_rece_task_queue s' = q ++ (session_rx pdu_c (e2ap_ s)).2
    ∧ tx s' = tx s.
Proof.
  intros Hpc Hq Hok. unfold thread_step, run_next_task. rewrite Hpc, Hq.
  eexists. split; [done|]. cbn [thread set_thread running ric_socket e2ap_
                                 ric_rece_task_queue tx].
  unfold run_task. rewrite M_bind_eq. unfold mret, M_ret. cbn [snd].
  destruct (handle_e2_rx_msg_decoded buf pdu_c (set_task_queue q s) Hok)
    as [(Hr & Hs & _ & He & Hq' & Ht) _].
  rewrite app_nil_r in Ht. done.
Qed.

(** The step of the thread that runs a task that sends: one outbound
    operation, and the task is gone from the queue. *)
Lemma thread_step_sends t pdu q s :
  thread s = at_run_next_task ->
  ric_rece_task_queue s = t :: q ->
  (t = send_e2ap_pdu_task pdu
   ∨ t = send_reset_resp
     ∧ pdu = successful_outcome
               (reset_resp {| reset_resp_transaction_id := reset_id (e2ap_ s) |})) ->
  exists s',
    thread_step s = Some s'
    ∧ thread s' = at_while ∧ running s' = running s ∧ ric_socket s' = ric_socket s
    ∧ e2ap_ s' = e2ap_ s
    ∧ ric_rece_task_queue s' = q
    ∧ tx s' = tx s ++ [{| tx_pdu := pdu;
                          tx_outcome := send_outcome_of (length (tx s)) pdu |}].
Proof.
  intros Hpc Hq Ht. unfold thread_step, run_next_task. rewrite Hpc, Hq.
  eexists. split; [done|]. cbn [thread set_thread running ric_socket e2ap_
                                 ric_rece_task_queue tx].
  destruct Ht as [->|[-> ->]].
  - destruct (send_e2ap_pdu_task_sends_one pdu (set_task_queue q s))
      as (Hr & Hs & _ & He & Hq' & Ht).
    rewrite app_nil_r in Hq'. done.
  - destruct (send_reset_resp_sends_one (set_task_queue q s))
      as (Hr & Hs & _ & He & Hq' & Ht).
    rewrite app_nil_r in Hq'. done.
Qed.

(** A [stop] that finds the thread at [while (running)] returns with the
    queue as it is: the tasks in it are not run, then or later. *)
Lemma stop_leaves_the_queue fuel s :
  thread s = at_while ->
  exists s',
    stop (S (S fuel)) s = Some s'
    ∧ tx s' = tx s ∧ ric_rece_task_queue s' = ric_rece_task_queue s
    ∧ e2ap_ s' = e2ap_ s
    ∧ thread s' = thread_finished ∧ thread_step s' = None.
Proof. intros Hpc. rewrite (stop_at_while fuel s Hpc). eexists. by split_and!. Qed.

(** C1, as the code has it. A Reset Request that arrives while the agent
    runs, whatever is queued or pending (a previous reset included). The
    thread comes to its task after the tasks queued ahead of it and handles
    it in one step: every Subscription Record and every Pending Procedure
    is cleared, the transaction is noted, nothing is sent in that step, and
    exactly one task, the one that sends the Reset Response, is queued
    behind the tasks that wait; [running] and the transport are untouched
    and an Established session stays Established. As long as the agent is
    not stopped, whatever arrives and however the timers tick, the thread
    comes to that task after the tasks ahead of it and runs it in one step,
    which is exactly one outbound operation, the Reset Response, the task
    being gone from the queue. If the agent is stopped once the request is
    handled, [stop] returns with the task still queued and nothing sent,
    and the thread takes no further step. In every execution the Reset
    Responses accounted for, sent or waiting in the queue, are one more
    after each step that handles a Reset Request, and as many as before
    after any other step or event: no request gets two, and none is lost
    but in the queue of a stopped agent. *)
Theorem reset_request_is_answered_in_turn :
  (forall (buf : byte_buffer) (r : reset_request_s) s (evs1 : list event),
     unpack buf = Some (init_msg (reset_request r)) ->
     running s = true ->
     thread s = at_while ∨ thread s = at_run_next_task ->
     thread_events evs1 = steps_to_turn (length (ric_rece_task_queue s)) s ->
     exists s1 q1 s2,
       run_events (bytes_arrive buf :: evs1) s = Some s1
       ∧ thread s1 = at_run_next_task
       ∧ ric_rece_task_queue s1 = rx_task buf :: q1
       ∧ thread_step s1 = Some s2
       ∧ thread s2 = at_while
       ∧ subscriptions (e2ap_ s2) = ∅
       ∧ pending (e2ap_ s2) = []
       ∧ reset_id (e2ap_ s2) = reset_transaction_id r
       ∧ ric_rece_task_queue s2 = q1 ++ [send_reset_resp]
       ∧ tx s2 = tx s1
       ∧ running s2 = true
       ∧ ric_socket s2 = ric_socket s
       ∧ (lifecycle s1 = Established -> lifecycle s2 = Established)
       ∧ (forall evs2,
            thread_events evs2 = (2 * length q1 + 1)%nat ->
            exists s3 q3 s4,
              run_events evs2 s2 = Some s3
              ∧ thread s3 = at_run_next_task
              ∧ ric_rece_task_queue s3 = send_reset_resp :: q3
              ∧ thread_step s3 = Some s4
              ∧ (let pdu := successful_outcome
                              (reset_resp {| reset_resp_transaction_id := reset_id (e2ap_ s3) |}) in
                 tx s4 = tx s3 ++ [{| tx_pdu := pdu;
                                      tx_outcome := send_outcome_of (length (tx s3)) pdu |}])
              ∧ ric_rece_task_queue s4 = q3
              ∧ e2ap_ s4 = e2ap_ s3
              ∧ running s4 = true
              ∧ ric_socket s4 = ric_socket s)
       ∧ (forall fuel,
            exists s',
              stop (S (S fuel)) s2 = Some s'
              ∧ tx s' = tx s1
              ∧ ric_rece_task_queue s' = q1 ++ [send_reset_resp]
              ∧ thread s' = thread_finished
              ∧ thread_step s' = None))
  ∧ (forall s s',
       thread_step s = Some s' ->
       reset_responses s'
       = (reset_responses s + (if handles_a is_reset_request s then 1 else 0))%nat)
  ∧ (forall s (buf : byte_buffer),
       reset_responses (push (rx_task buf) s).2 = reset_responses s
       ∧ reset_responses (tic s).2 = reset_responses s
       ∧ reset_responses (set_running false s) = reset_responses s).
Proof.
  split_and!;
    [|intros s s' Hstep; by destruct (replies_accounted_step s s' Hstep)
     |intros s buf; by destruct (replies_accounted_other s buf)].
  intros buf r s evs1 Hok Hrun Hpc Hn.
  destruct (task_reaches_the_head evs1 (push (rx_task buf) s).2
              (ric_rece_task_queue s) (rx_task buf) [])
    as (s1 & q1 & Hev1 & Hr1 & Hs1 & Hpc1 & Hq1); [done..|].
  cbn [app] in Hq1. change (ric_socket s1 = ric_socket s) in Hs1.
  destruct (thread_step_handles buf _ q1 s1 Hpc1 Hq1 Hok)
    as (s2 & Hstep & Hpc2 & Hr2 & Hs2 & He2 & Hq2 & Ht2).
  cbn [session_rx fst snd] in He2, Hq2.
  exists s1, q1, s2. split_and!; try done.
  - by rewrite He2.
  - by rewrite He2.
  - by rewrite He2.
  - by rewrite Hr2.
  - by rewrite Hs2.
  - rewrite !lifecycle_established, Hs2, He2. done.
  - intros evs2 Hn2.
    destruct (task_reaches_the_head evs2 s2 q1 send_reset_resp [])
      as (s3 & q3 & Hev3 & Hr3 & Hs3 & Hpc3 & Hq3);
      [by rewrite Hr2|by left|done|by rewrite steps_to_turn_at_while|].
    cbn [app] in Hq3.
    destruct (thread_step_sends send_reset_resp _ q3 s3 Hpc3 Hq3 (or_intror (conj eq_refl eq_refl)))
      as (s4 & Hstep4 & _ & Hr4 & Hs4 & He4 & Hq4 & Ht4).
    exists s3, q3, s4. split_and!; try done; [by rewrite Hr4|by rewrite Hs4, Hs3, Hs2].
  - intros fuel. destruct (stop_leaves_the_queue fuel s2 Hpc2)
      as (s' & Hstop & Ht' & Hq' & _ & Hpc' & Hno).
    exists s'. split_and!; try done; [by rewrite Ht'|by rewrite Hq'].
Qed.

(** C6, as the code has it. A Subscription Request that arrives while the
    agent runs. The thread comes to its task after the tasks queued ahead
    of it and handles it in one step. When the request is admitted, the
    Subscription Record keyed by (requestor identifier, instance
    identifier) is created or updated, with the identifiers, the function
    and the admitted actions of the request, the other records being as
    before, and the reply is the grant; when it is refused, the records are
    as before and the reply is the explicit refusal. In both cases nothing
    is sent in that step, exactly one task, which sends the reply, is
    queued behind the tasks that wait, and an Established session stays
    Established. As long as the agent is not stopped, the thread comes to
    that task after the tasks ahead of it and runs it in one step, which is
    exactly one outbound operation, the reply. If the agent is stopped once
    the request is handled, [stop] returns with the task still queued and
    nothing sent, and the thread takes no further step. In every execution
    the replies accounted for, sent or waiting in the queue, are one more
    after each step that handles a Subscription Request, and as many as
    before after any other step or event. *)
Theorem subscription_request_is_answered_in_turn :
  (forall (buf : byte_buffer) (r : ricsubscription_request_s) s (evs1 : list event),
     unpack buf = Some (init_msg (ricsubscription_request r)) ->
     running s = true ->
     thread s = at_while ∨ thread s = at_run_next_task ->
     thread_events evs1 = steps_to_turn (length (ric_rece_task_queue s)) s ->
     let key := (ric_requestor_id (ri_crequest_id r), ric_instance_id (ri_crequest_id r)) in
     exists s1 q1 s2 reply,
       run_events (bytes_arrive buf :: evs1) s = Some s1
       ∧ thread s1 = at_run_next_task
       ∧ ric_rece_task_queue s1 = rx_task buf :: q1
       ∧ thread_step s1 = Some s2
       ∧ thread s2 = at_while
       ∧ match admitted_actions r with
         | Some actions =>
             subscriptions (e2ap_ s2) !! key
             = Some {| requestor_id := ric_requestor_id (ri_crequest_id r);
                       instance_id := ric_instance_id (ri_crequest_id r);
                       function_id := ra_nfunction_id r;
                       granted_actions := actions |}
             ∧ (forall key', key' ≠ key ->
                  subscriptions (e2ap_ s2) !! key' = subscriptions (e2ap_ s1) !! key')
             ∧ reply = successful_outcome (ricsubscription_resp
                         {| resp_ri_crequest_id := ri_crequest_id r;
                            resp_ra_nfunction_id := ra_nfunction_id r;
                            ri_cactions_admitted := actions |})
         | None =>
             subscriptions (e2ap_ s2) = subscriptions (e2ap_ s1)
             ∧ reply = unsuccessful_outcome (ricsubscription_fail
                         {| fail_ri_crequest_id := ri_crequest_id r;
                            fail_ra_nfunction_id := ra_nfunction_id r |})
         end
       ∧ ric_rece_task_queue s2 = q1 ++ [send_e2ap_pdu_task reply]
       ∧ tx s2 = tx s1
       ∧ running s2 = true
       ∧ ric_socket s2 = ric_socket s
       ∧ (lifecycle s1 = Established -> lifecycle s2 = Established)
       ∧ (forall evs2,
            thread_events evs2 = (2 * length q1 + 1)%nat ->
            exists s3 q3 s4,
              run_events evs2 s2 = Some s3
              ∧ thread s3 = at_run_next_task
              ∧ ric_rece_task_queue s3 = send_e2ap_pdu_task reply :: q3
              ∧ thread_step s3 = Some s4
              ∧ tx s4 = tx s3 ++ [{| tx_pdu := reply;
                                     tx_outcome := send_outcome_of (length (tx s3)) reply |}]
              ∧ ric_rece_task_queue s4 = q3
              ∧ e2ap_ s4 = e2ap_ s3
              ∧ running s4 = true
              ∧ ric_socket s4 = ric_socket s)
       ∧ (forall fuel,
            exists s',
              stop (S (S fuel)) s2 = Some s'
              ∧ tx s' = tx s1
              ∧ ric_rece_task_queue s' = q1 ++ [send_e2ap_pdu_task reply]
              ∧ thread s' = thread_finished
              ∧ thread_step s' = None))
  ∧ (forall s s',
       thread_step s = Some s' ->
       subscription_replies s'
       = (subscription_replies s
          + (if handles_a is_subscription_request s then 1 else 0))%nat)
  ∧ (forall s (buf : byte_buffer),
       subscription_replies (push (rx_task buf) s).2 = subscription_replies s
       ∧ subscription_replies (tic s).2 = subscription_replies s
       ∧ subscription_replies (set_running false s) = subscription_replies s).
Proof.
  split_and!;
    [|intros s s' Hstep; by destruct (replies_accounted_step s s' Hstep)
     |intros s buf; by destruct (replies_accounted_other s buf)].
  intros buf r s evs1 Hok Hrun Hpc Hn key.
  destruct (task_reaches_the_head evs1 (push (rx_task buf) s).2
              (ric_rece_task_queue s) (rx_task buf) [])
    as (s1 & q1 & Hev1 & Hr1 & Hs1 & Hpc1 & Hq1); [done..|].
  cbn [app] in Hq1. change (ric_socket s1 = ric_socket s) in Hs1.
  destruct (thread_step_handles buf _ q1 s1 Hpc1 Hq1 Hok)
    as (s2 & Hstep & Hpc2 & Hr2 & Hs2 & He2 & Hq2 & Ht2).
  cbn [session_rx fst snd] in He2, Hq2.
  assert (exists reply,
            (process_subscription_request r (e2ap_ s1)).2 = [reply]
            ∧ match admitted_actions r with
              | Some actions =>
                  subscriptions (e2ap_ s2) !! key
                  = Some {| requestor_id := ric_requestor_id (ri_crequest_id r);
                            instance_id := ric_instance_id (ri_crequest_id r);
                            function_id := ra_nfunction_id r;
                            granted_actions := actions |}
                  ∧ (forall key', key' ≠ key ->
                       subscriptions (e2ap_ s2) !! key' = subscriptions (e2ap_ s1) !! key')
                  ∧ reply = successful_outcome (ricsubscription_resp
                              {| resp_ri_crequest_id := ri_crequest_id r;
                                 resp_ra_nfunction_id := ra_nfunction_id r;
                                 ri_cactions_admitted := actions |})
              | None =>
                  subscriptions (e2ap_ s2) = subscriptions (e2ap_ s1)
                  ∧ reply = unsuccessful_outcome (ricsubscription_fail
                              {| fail_ri_crequest_id := ri_crequest_id r;
                                 fail_ra_nfunction_id := ra_nfunction_id r |})
              end
            ∧ e2_established (e2ap_ s2) = e2_established (e2ap_ s1))
    as (reply & Hreply & Hrec & Hest).
  { rewrite He2. unfold process_subscription_request.
    destruct (admitted_actions r) as [actions|]; cbn [fst snd subscriptions set_subscriptions
                                                       e2_established].
    - eexists. split; [done|]. split; [|done]. split_and!; [|
        intros key' Hne; by rewrite lookup_insert_ne|done].
      by rewrite lookup_insert_eq.
    - eexists. done. }
  rewrite Hreply in Hq2. cbn [map] in Hq2.
  exists s1, q1, s2, reply. split_and!; try done.
  - by rewrite Hr2.
  - by rewrite Hs2.
  - rewrite !lifecycle_established, Hs2, Hest. done.
  - intros evs2 Hn2.
    destruct (task_reaches_the_head evs2 s2 q1 (send_e2ap_pdu_task reply) [])
      as (s3 & q3 & Hev3 & Hr3 & Hs3 & Hpc3 & Hq3);
      [by rewrite Hr2|by left|done|by rewrite steps_to_turn_at_while|].
    cbn [app] in Hq3.
    destruct (thread_step_sends (send_e2ap_pdu_task reply) reply q3 s3 Hpc3 Hq3
                (or_introl eq_refl))
      as (s4 & Hstep4 & _ & Hr4 & Hs4 & He4 & Hq4 & Ht4).
    exists s3, q3, s4. split_and!; try done; [by rewrite Hr4|by rewrite Hs4, Hs3, Hs2].
  - intros fuel. destruct (stop_leaves_the_queue fuel s2 Hpc2)
      as (s' & Hstop & Ht' & Hq' & _ & Hpc' & Hno).
    exists s'. split_and!; try done; [by rewrite Ht'|by rewrite Hq'].
Qed.


(** **** How long a setup stays pending *)

Lemma filter_setup_remove_other (k : procedure_kind) (key : N) (l : list pending_procedure) :
  k ≠ setup_procedure ->
  filter (fun p => kind p = setup_procedure) (filter (fun p => ¬ correlates k key p) l)
  = filter (fun p => kind p = setup_procedure) l.
Proof.
  intros Hk. induction l as [|p l IH]; [done|].
  rewrite (filter_cons (fun p => ¬ correlates k key p)).
  destruct (decide (¬ correlates k key p)) as [Hkeep|Hdrop].
  - rewrite !filter_cons. by rewrite IH.
  - rewrite (filter_cons (fun p => kind p = setup_procedure) p l).
    destruct (decide (kind p = setup_procedure)) as [Hsetup|]; [|done].
    exfalso. apply Hdrop. intros [Hkind _]. congruence.
Qed.

Lemma process_failure_keeps_setup (k : procedure_kind) (key : N) e :
  k ≠ setup_procedure ->
  pending_setups (process_failure k key e).2 = pending_setups e.
Proof.
  intros Hk. unfold process_failure. destruct (is_pending k key e); [|done].
  unfold pending_setups, remove_pending. cbn [snd pending set_pending].
  by rewrite filter_setup_remove_other.
Qed.

(** A message that is not an answer to the pending setup, nor a reset,
    leaves the Pending Setup Procedures as they are. *)
Lemma session_rx_keeps_setup pdu_c e :
  ends_setup pdu_c e = false ->
  pending_setups (session_rx pdu_c e).1 = pending_setups e.
Proof.
  destruct pdu_c as [[]|[]|[]|]; cbn [session_rx ends_setup fst snd]; try done.
  - intros _. destruct (process_subscription_request_pending r e) as (Hp & _).
    unfold pending_setups. by rewrite Hp.
  - intros _. destruct (process_subscription_delete_request_pending r e) as (Hp & _).
    unfold pending_setups. by rewrite Hp.
  - intros Hno. unfold process_setup_response. by rewrite Hno.
  - intros _. by apply process_failure_keeps_setup.
  - intros Hno. unfold process_e2_setup_failure. by rewrite Hno.
  - intros _. by apply process_failure_keeps_setup.
  - intros _. by apply process_failure_keeps_setup.
  - intros _. by apply process_failure_keeps_setup.
Qed.

(** A tick at which no setup expires leaves the Pending Setup Procedures
    as they are. *)
Lemma timers_step_keeps_setup e :
  setup_expires e = false -> pending_setups (timers_step e) = pending_setups e.
Proof.
  unfold setup_expires, timers_step, pending_setups. cbn [pending].
  rewrite bool_decide_eq_false. generalize (clock e + 1). intros now Hno. f_equal.
  induction (pending e) as [|p l IH]; [done|].
  assert (filter (fun p => kind p = setup_procedure) (filter (fun p => ¬ deadline p <= now) l)
          = filter (fun p => kind p = setup_procedure) l) as IH'.
  { apply IH. intros Hex. apply Hno. by right. }
  rewrite (filter_cons (fun p => ¬ deadline p <= now)).
  destruct (decide (¬ deadline p <= now)) as [Hkeep|Hdrop].
  - rewrite !filter_cons. by rewrite IH'.
  - rewrite (filter_cons (fun p => kind p = setup_procedure) p l).
    destruct (decide (kind p = setup_procedure)) as [Hsetup|]; [|done].
    exfalso. apply Hno. left. split; [done|]. by apply dec_stable.
Qed.

Lemma has_pending_true e :
  has_pending setup_procedure e = true <-> pending_setups e ≠ 0%nat.
Proof.
  rewrite <- has_pending_setups. by destruct (has_pending setup_procedure e).
Qed.

(** A Pending Setup Procedure stays pending over a step of the agent,
    unless the step handles the answer to it or a Reset Request of the
    peer, or is the tick at which it expires. *)
Lemma step_keeps_setup s s' :
  step s s' ->
  has_pending setup_procedure (e2ap_ s) = true ->
  has_pending setup_procedure (e2ap_ s') = true
  ∨ (exists (buf : byte_buffer) q pdu_c,
       thread s = at_run_next_task
       ∧ ric_rece_task_queue s = rx_task buf :: q
       ∧ thread_step s = Some s'
       ∧ unpack buf = Some pdu_c
       ∧ ends_setup pdu_c (e2ap_ s) = true)
  ∨ (s' = (tic s).2 ∧ setup_expires (e2ap_ s) = true).
Proof.
  intros Hstep Hpending. destruct Hstep as [s s' Hth|s buf|s|s].
  - pose proof Hth as Hth'. unfold thread_step in Hth. destruct (thread s) eqn:Hpc; try done.
    + left. destruct (running s); injection Hth as <-; cbn; [|done].
      by rewrite (run_thread_body_not_due s (send_setup_request_pending _ Hpending)).
    + unfold run_next_task in Hth.
      destruct (ric_rece_task_queue s) as [|t q] eqn:Hq; [done|]. injection Hth as <-.
      cbn [e2ap_ set_thread]. destruct t as [buf| |pdu].
      * destruct (unpack buf) as [pdu_c|] eqn:Hbuf.
        -- destruct (ends_setup pdu_c (e2ap_ s)) eqn:Hends;
             [right; left; by exists buf, q, pdu_c|].
           left. unfold run_task. rewrite M_bind_eq. unfold mret, M_ret. cbn [snd].
           destruct (handle_e2_rx_msg_decoded buf pdu_c (set_task_queue q s) Hbuf)
             as [(_ & _ & _ & He & _) _].
           cbn [e2ap_ set_task_queue] in He. rewrite He.
           apply has_pending_true. rewrite session_rx_keeps_setup by done.
           by apply has_pending_true.
        -- left. unfold run_task. rewrite M_bind_eq. unfold mret, M_ret. cbn [snd].
           by rewrite (handle_e2_rx_msg_undecoded buf _ Hbuf).
      * left. by destruct (send_reset_resp_sends_one (set_task_queue q s))
                as (_ & _ & _ & -> & _).
      * left. by destruct (send_e2ap_pdu_task_sends_one pdu (set_task_queue q s))
                as (_ & _ & _ & -> & _).
  - by left.
  - destruct (setup_expires (e2ap_ s)) eqn:Hexp; [by right; right|].
    left. apply has_pending_true. unfold tic. unfold_agent.
    rewrite timers_step_keeps_setup by done. by apply has_pending_true.
  - by left.
Qed.

(** What [init] leaves when the socket could be opened, subscribed, bound
    and connected. *)
Lemma init_started :
  is_Some open_socket -> sctp_subscribe_to_events = true -> bind_addr = true ->
  connect_to = true ->
  running (init e2_agent_new).2 = true
  ∧ thread (init e2_agent_new).2 = at_while
  ∧ e2ap_ (init e2_agent_new).2 = e2ap_init
  ∧ tx (init e2_agent_new).2 = []
  ∧ ric_rece_task_queue (init e2_agent_new).2 = [].
Proof.
  intros [fd Hfd] Hsub Hbind Hconn. unfold init. rewrite Hfd, Hsub, Hbind, Hconn.
  cbn [negb]. unfold_agent. done.
Qed.

Lemma first_on_wire s :
  first_is_setup_request (emitted s) ->
  (forall r, head (tx s) = Some r -> tx_outcome r = sctp_sent) ->
  first_is_setup_request (on_wire s).
Proof.
  unfold emitted, on_wire. destruct (tx s) as [|r t]; [done|].
  cbn [map first_is_setup_request head]. intros Hsetup Hsent.
  rewrite filter_cons_True by (by apply Hsent). done.
Qed.

(** C3, as the code has it. An outbound operation is a call of
    [send_e2ap_pdu], whatever its outcome. When [init] succeeds on a new
    agent, the first step of its thread is exactly one outbound operation,
    the Setup Request of transaction 0, and its Setup Procedure is pending.
    In every execution begun by [init]: the first outbound operation, if
    any, is a Setup Request, and it is the first PDU the socket takes
    provided its send succeeds; while there has been no outbound operation,
    the next pass of the loop of a running thread makes exactly one, a
    Setup Request; a step sends no Setup Request, or exactly one and
    nothing else, and this only when no Setup Procedure is pending, the
    procedure of the request being pending afterwards; and a Pending Setup
    Procedure stays pending until the step that handles the answer that
    correlates with it or a Reset Request of the peer, or the tick at which
    it expires. *)
Theorem setup_request_is_first_and_none_while_pending :
  (is_Some open_socket -> sctp_subscribe_to_events = true -> bind_addr = true ->
   connect_to = true ->
   exists s1,
     thread_step (init e2_agent_new).2 = Some s1
     ∧ (let pdu := init_msg (e2setup_request {| setup_transaction_id := 0 |}) in
        tx s1 = [{| tx_pdu := pdu; tx_outcome := send_outcome_of 0 pdu |}])
     ∧ has_pending setup_procedure (e2ap_ s1) = true)
  ∧ forall s,
      reachable s ->
      first_is_setup_request (emitted s)
      ∧ ((forall r, head (tx s) = Some r -> tx_outcome r = sctp_sent) ->
         first_is_setup_request (on_wire s))
      ∧ (emitted s = [] -> thread s = at_while -> running s = true ->
         exists s' pdu, thread_step s = Some s'
                        ∧ emitted s' = [pdu] ∧ is_setup_request pdu = true)
      ∧ forall s',
          step s s' ->
          exists l,
            emitted s' = emitted s ++ l
            ∧ (Forall (fun pdu => is_setup_request pdu = false) l
               ∨ exists pdu,
                   l = [pdu] ∧ is_setup_request pdu = true
                   ∧ has_pending setup_procedure (e2ap_ s) = false
                   ∧ has_pending setup_procedure (e2ap_ s') = true)
            ∧ (has_pending setup_procedure (e2ap_ s) = true ->
               has_pending setup_procedure (e2ap_ s') = true
               ∨ (exists (buf : byte_buffer) q pdu_c,
                    thread s = at_run_next_task
                    ∧ ric_rece_task_queue s = rx_task buf :: q
                    ∧ thread_step s = Some s'
                    ∧ unpack buf = Some pdu_c
                    ∧ ends_setup pdu_c (e2ap_ s) = true)
               ∨ (s' = (tic s).2 ∧ setup_expires (e2ap_ s) = true)).
Proof.
  split.
  - intros Hopen Hsub Hbind Hconn.
    destruct (init_started Hopen Hsub Hbind Hconn) as (Hrun & Hpc & He & Ht & _).
    assert (send_setup_request (e2ap_ (init e2_agent_new).2) = true) as Hdue.
    { rewrite He. by apply fresh_due. }
    destruct (run_thread_body_due _ Hdue) as (_ & _ & _ & He1 & _ & Ht1).
    eexists. unfold thread_step. rewrite Hpc, Hrun. split; [done|].
    cbn [tx e2ap_ set_thread]. rewrite Ht1, He1, Ht, He. split; [done|].
    apply generate_setup_request_pending.
  - intros s Hreach. pose proof (reachable_invariant s Hreach) as Hinv.
    pose proof Hinv as (_ & _ & Hfirst & Hsetup). split_and!; [done| | |].
    + by apply first_on_wire.
    + intros Hnil Hpc Hrun. unfold emitted in Hnil. apply fmap_nil_inv in Hnil.
      destruct (Hfirst Hnil) as [_ Hfresh]. apply fresh_due in Hfresh.
      destruct (run_thread_body_due s Hfresh) as (_ & _ & _ & _ & _ & Ht).
      destruct (generate_setup_request_pending (e2ap_ s)) as (_ & _ & Hpdu).
      eexists _, _. unfold thread_step. rewrite Hpc, Hrun. split; [done|].
      unfold emitted. cbn. rewrite Ht, Hnil. cbn. done.
    + intros s' Hstep. destruct (step_emits s s' Hinv Hstep) as (l & Hl & Hcases).
      exists l. split; [done|]. split.
      * destruct Hcases as [Hnone|(-> & Hdue & ->)]; [by left|]. right.
        destruct (generate_setup_request_pending (e2ap_ s)) as (_ & Hp & Hpdu).
        eexists. split_and!; [done..| |done].
        apply has_pending_setups. by apply send_setup_request_no_pending.
      * by apply step_keeps_setup.
Qed.

End facts.

(** **** The theorems at work, in the example environment *)

Lemma reset_request_is_answered_in_turn_witness :
  exists s1 s2 s3 s4,
    @run_events example_environment [bytes_arrive [Byte.x01]] example_established = Some s1
    ∧ @thread_step example_environment s1 = Some s2
    ∧ subscriptions (e2ap_ s2) = ∅
    ∧ ric_rece_task_queue s2 = [send_reset_resp]
    ∧ tx s2 = tx s1
    ∧ lifecycle s2 = Established
    ∧ @run_events example_environment [thread_runs] s2 = Some s3
    ∧ @thread_step example_environment s3 = Some s4
    ∧ emitted s4
      = emitted s3
        ++ [successful_outcome (reset_resp {| reset_resp_transaction_id := reset_id (e2ap_ s3) |})]
    ∧ ric_rece_task_queue s4 = [].
Proof.
  destruct (proj1 (@reset_request_is_answered_in_turn example_environment) [Byte.x01]
              {| reset_transaction_id := 5 |} example_established []
              eq_refl eq_refl (or_intror eq_refl) eq_refl)
    as (s1 & q1 & s2 & Hev1 & Hpc1 & Hq1 & Hstep & Hpc2 & Hsub & Hpend & Hid & Hq2 & Ht2
        & Hr2 & Hs2 & Hlife & Hrest & Hstop).
  injection Hev1 as <-. injection Hq1 as <-.
  destruct (Hrest [thread_runs] eq_refl)
    as (s3 & q3 & s4 & Hev3 & Hpc3 & Hq3 & Hstep4 & Ht4 & Hq4 & He4 & Hr4 & Hs4).
  assert (q3 = []) as ->.
  { revert Hev3 Hq3. cbn [run_events run_event mbind option_bind]. unfold thread_step.
    rewrite Hpc2, Hr2. cbn [mbind option_bind]. intros [= <-].
    cbn [ric_rece_task_queue set_thread].
    destruct (@run_thread_body_frame example_environment s2) as (_ & _ & ->).
    rewrite Hq2. cbn [app]. by intros [= <-]. }
  exists (push (rx_task [Byte.x01]) example_established).2, s2, s3, s4.
  split_and!; try done.
  - by apply Hlife.
  - unfold emitted. rewrite Ht4, map_app. done.
Defined.

Lemma subscription_request_is_answered_in_turn_witness :
  exists s1 s2 s3 s4 reply,
    @run_events example_environment [bytes_arrive [Byte.x02]] example_established = Some s1
    ∧ @thread_step example_environment s1 = Some s2
    ∧ subscriptions (e2ap_ s2) !! (3, 1)
      = Some {| requestor_id := 3; instance_id := 1; function_id := 147;
                granted_actions := [1; 2] |}
    ∧ reply = successful_outcome (ricsubscription_resp
                {| resp_ri_crequest_id := {| ric_requestor_id := 3; ric_instance_id := 1 |};
                   resp_ra_nfunction_id := 147; ri_cactions_admitted := [1; 2] |})
    ∧ ric_rece_task_queue s2 = [send_e2ap_pdu_task reply]
    ∧ tx s2 = tx s1
    ∧ lifecycle s2 = Established
    ∧ @run_events example_environment [thread_runs] s2 = Some s3
    ∧ @thread_step example_environment s3 = Some s4
    ∧ emitted s4 = emitted s3 ++ [reply]
    ∧ ric_rece_task_queue s4 = [].
Proof.
  destruct (proj1 (@subscription_request_is_answered_in_turn example_environment) [Byte.x02]
              {| ri_crequest_id := {| ric_requestor_id := 3; ric_instance_id := 1 |};
                 ra_nfunction_id := 147; ricsubscription_details := [1; 2] |}
              example_established [] eq_refl eq_refl (or_intror eq_refl) eq_refl)
    as (s1 & q1 & s2 & reply & Hev1 & Hpc1 & Hq1 & Hstep & Hpc2 & Hrec & Hq2 & Ht2
        & Hr2 & Hs2 & Hlife & Hrest & Hstop).
  injection Hev1 as <-. injection Hq1 as <-.
  cbn [admitted_actions example_environment ricsubscription_details] in Hrec.
  destruct Hrec as (Hrec & _ & Hreply).
  destruct (Hrest [thread_runs] eq_refl)
    as (s3 & q3 & s4 & Hev3 & Hpc3 & Hq3 & Hstep4 & Ht4 & Hq4 & He4 & Hr4 & Hs4).
  assert (q3 = []) as ->.
  { revert Hev3 Hq3. cbn [run_events run_event mbind option_bind]. unfold thread_step.
    rewrite Hpc2, Hr2. cbn [mbind option_bind]. intros [= <-].
    cbn [ric_rece_task_queue set_thread].
    destruct (@run_thread_body_frame example_environment s2) as (_ & _ & ->).
    rewrite Hq2. cbn [app]. by intros [= <-]. }
  exists (push (rx_task [Byte.x02]) example_established).2, s2, s3, s4, reply.
  split_and!; try done.
  - by apply Hlife.
  - unfold emitted. rewrite Ht4, map_app. done.
Defined.

Lemma setup_request_is_first_and_none_while_pending_witness :
  first_is_setup_request (emitted example_established)
  ∧ first_is_setup_request (on_wire example_established).
Proof.
  destruct (proj2 (@setup_request_is_first_and_none_while_pending example_environment)
              example_established) as (Hfirst & Hwire & _).
  { apply (@run_events_steps example_environment
             [thread_runs; bytes_arrive [Byte.x03]; thread_runs; thread_runs]).
    vm_compute. reflexivity. }
  split; [exact Hfirst|]. apply Hwire. intros r Hr. vm_compute in Hr.
  by injection Hr as <-.
Defined.

(** An established agent with the Subscription Record (3, 1) is stopped
    while a Reset Request waits in its queue. [stop] returns once the
    thread has handled the request: the record is gone and the task of the
    response is queued. No Reset Response has been sent, and none will be:
    the thread has returned. *)
Lemma reset_request_is_left_unanswered_by_stop :
  (fun s' => (subscriptions (e2ap_ s') !! (3, 1), emitted s', ric_rece_task_queue s',
              thread s', @thread_step example_environment s'))
    <$> (@run_events example_environment
           [thread_runs; bytes_arrive [Byte.x03]; thread_runs; thread_runs;
            bytes_arrive [Byte.x02]; thread_runs; thread_runs; thread_runs; thread_runs;
            bytes_arrive [Byte.x01]]
           (@init example_environment e2_agent_new).2
         ≫= @stop example_environment 2)
  = Some (None,
          [init_msg (e2setup_request {| setup_transaction_id := 0 |});
           successful_outcome (ricsubscription_resp
             {| resp_ri_crequest_id := {| ric_requestor_id := 3; ric_instance_id := 1 |};
                resp_ra_nfunction_id := 147; ri_cactions_admitted := [1; 2] |})],
          [send_reset_resp], thread_finished, None).
Proof. vm_compute. reflexivity. Qed.

(** Two executions. A Subscription Request that is refused is answered
    with the refusal, and no Subscription Record is created for it. A
    Subscription Request that waits in the queue when the agent is stopped
    is handled, and its reply is never sent. *)
Lemma subscription_request_without_record_or_reply :
  (fun s => (subscriptions (e2ap_ s) !! (3, 1), emitted s, ric_rece_task_queue s, lifecycle s))
    <$> @run_events example_environment_refusing
          [thread_runs; bytes_arrive [Byte.x03]; thread_runs; thread_runs;
           bytes_arrive [Byte.x02]; thread_runs; thread_runs; thread_runs]
          (@init example_environment_refusing e2_agent_new).2
  = Some (None,
          [init_msg (e2setup_request {| setup_transaction_id := 0 |});
           unsuccessful_outcome (ricsubscription_fail
             {| fail_ri_crequest_id := {| ric_requestor_id := 3; ric_instance_id := 1 |};
                fail_ra_nfunction_id := 147 |})],
          [], Established)
  ∧ (fun s' => (emitted s', ric_rece_task_queue s', thread s',
                @thread_step example_environment s'))
      <$> (@run_events example_environment
             [thread_runs; bytes_arrive [Byte.x03]; thread_runs; thread_runs;
              bytes_arrive [Byte.x02]]
             (@init example_environment e2_agent_new).2
           ≫= @stop example_environment 2)
    = Some ([init_msg (e2setup_request {| setup_transaction_id := 0 |})],
            [send_e2ap_pdu_task
               (successful_outcome (ricsubscription_resp
                  {| resp_ri_crequest_id := {| ric_requestor_id := 3; ric_instance_id := 1 |};
                     resp_ra_nfunction_id := 147; ri_cactions_admitted := [1; 2] |}))],
            thread_finished, None).
Proof. split; vm_compute; reflexivity. Qed.

(** Two executions. When the buffer pool is empty for the first send, the
    Setup Request does not reach the socket, and the first PDU on the wire
    is the response to a Subscription Request. When the peer sends a Reset
    Request instead of answering, the Pending Setup Procedure is cleared
    with the others and the next pass of the loop sends a second Setup
    Request, the first being unanswered and no timer having expired. *)
Lemma setup_request_neither_first_on_the_wire_nor_alone :
  (fun s => (map tx_outcome (tx s), on_wire s))
    <$> @run_events example_environment_no_buffer
          [thread_runs; bytes_arrive [Byte.x02]; thread_runs; thread_runs; thread_runs]
          (@init example_environment_no_buffer e2_agent_new).2
  = Some ([no_buffer; sctp_sent],
          [successful_outcome (ricsubscription_resp
             {| resp_ri_crequest_id := {| ric_requestor_id := 3; ric_instance_id := 1 |};
                resp_ra_nfunction_id := 147; ri_cactions_admitted := [1; 2] |})])
  ∧ (fun s => (emitted s, map tx_outcome (tx s), e2_established (e2ap_ s), clock (e2ap_ s)))
      <$> @run_events example_environment
            [thread_runs; bytes_arrive [Byte.x01]; thread_runs; thread_runs]
            (@init example_environment e2_agent_new).2
    = Some ([init_msg (e2setup_request {| setup_transaction_id := 0 |});
             init_msg (e2setup_request {| setup_transaction_id := 1 |})],
            [sctp_sent; sctp_sent], false, 0).
Proof. split; vm_compute; reflexivity. Qed.

Lemma at_most_one_pending_setup_witness :
  (pending_setups
     (e2ap_ (default example_started (@thread_step example_environment example_started)))
   <= 1)%nat.
Proof.
  apply (@at_most_one_pending_setup example_environment).
  apply rtc_once. apply step_thread. reflexivity.
Defined.

(** An agent stopped while a Reset Request waits in its queue: [stop]
    returns, [running] is [false], and the transport endpoint is still
    open. *)
Lemma stop_leaves_the_transport_open :
  (fun s' => (running s', is_open (ric_socket s')))
    <$> @stop example_environment 2 (push (rx_task [Byte.x01]) example_established).2
  = Some (false, true).
Proof. vm_compute. reflexivity. Qed.

Lemma stop_is_idempotent_and_keeps_the_socket_witness :
  @stop example_environment 2 (set_thread thread_finished (set_running false example_started))
  = Some (set_thread thread_finished (set_running false example_started)).
Proof.
  apply (@stop_is_idempotent_and_keeps_the_socket example_environment 2 example_started).
  vm_compute. reflexivity.
Defined.

Lemma errors_stay_local_and_get_throws_witness :
  choice_details.get [choice_details.class_t "std::string"; choice_details.class_t "int"]
    (choice_details.class_t "std::string") {| choice_details.type_id := 1%Z; choice_details.buffer := "old" |}
  = inl "old"
  ∧ choice_details.get_if [choice_details.class_t "std::string"; choice_details.class_t "int"]
      (choice_details.class_t "int") {| choice_details.type_id := 1%Z; choice_details.buffer := "old" |}
    = None.
Proof.
  split.
  - apply (@errors_stay_local_and_get_throws example_environment send_reset_resp nulltype
             example_started
             [choice_details.class_t "std::string"; choice_details.class_t "int"]
             (choice_details.class_t "std::string")
             {| choice_details.type_id := 1%Z; choice_details.buffer := "old" |}).
    reflexivity.
  - apply (@errors_stay_local_and_get_throws example_environment send_reset_resp nulltype
             example_started
             [choice_details.class_t "std::string"; choice_details.class_t "int"]
             (choice_details.class_t "int")
             {| choice_details.type_id := 1%Z; choice_details.buffer := "old" |}).
    reflexivity.
Defined.

(** A Reset Request from receipt to reply: the request arrives at the
    established agent, the thread handles it, passes the head of the loop
    and runs the queued task; the Reset Response for transaction 5 is the
    one PDU sent after the Setup Request, and it reaches the socket. *)
Example reset_request_round_trip :
  let s1 := (push (rx_task [Byte.x01]) example_established).2 in
  let s2 := default s1 (@thread_step example_environment s1) in
  let s3 := default s2 (@thread_step example_environment s2) in
  let s4 := default s3 (@thread_step example_environment s3) in
  emitted s4
  = [init_msg (e2setup_request {| setup_transaction_id := 0 |});
     successful_outcome (reset_resp {| reset_resp_transaction_id := 5 |})]
  ∧ map tx_outcome (tx s4) = [sctp_sent; sctp_sent]
  ∧ ric_rece_task_queue s4 = []
  ∧ lifecycle s4 = Established.
Proof. vm_compute. repeat split. Qed.

Lemma undecodable_bytes_are_logged_and_dropped_witness :
  (@handle_e2_rx_msg example_environment [Byte.xff] example_established).1 = false
  ∧ e2ap_ (@handle_e2_rx_msg example_environment [Byte.xff] example_established).2
    = e2ap_ example_established.
Proof.
  pose proof (@undecodable_bytes_are_logged_and_dropped example_environment [Byte.xff]
                example_established eq_refl) as (Hret & _ & _ & He & _).
  split; [exact Hret|exact He].
Defined.

Lemma dispatch_routes_by_envelope_and_procedure_witness :
  same_but_log (@handle_e2_rx_msg example_environment [Byte.x01] example_established).2
    (handle_reset_request {| reset_transaction_id := 5 |} example_established).2
  ∧ same_but_log (@handle_e2_rx_msg example_environment [Byte.x04] example_established).2
      example_established.
Proof.
  split.
  - apply (@dispatch_routes_by_envelope_and_procedure example_environment [Byte.x01]
             (init_msg (reset_request {| reset_transaction_id := 5 |})) example_established).
    reflexivity.
  - apply (@dispatch_routes_by_envelope_and_procedure example_environment [Byte.x04]
             (init_msg ri_cctrl_request) example_established).
    reflexivity.
Defined.

(** [stop] does not return while the thread waits for a task that does
    not come. *)
Lemma stop_waits_for_a_task fuel : @stop example_environment fuel example_established = None.
Proof. destruct fuel; reflexivity. Qed.

Lemma queued_pdus_are_sent_in_order_witness :
  ric_rece_task_queue
    (queue_send_e2ap_pdu nulltype
       (queue_send_e2ap_pdu (init_msg ri_cctrl_request) example_established).2).2
  = [send_e2ap_pdu_task (init_msg ri_cctrl_request); send_e2ap_pdu_task nulltype].
Proof.
  apply (@queued_pdus_are_sent_in_order example_environment (init_msg ri_cctrl_request)
           nulltype example_established).
  reflexivity.
Defined.

Lemma run_loop_prints_sent_whatever_the_outcome_witness :
  last (logger (@run_thread_body example_environment example_started).2)
  = Some (stdout, "e2 setup request sent\n").
Proof.
  apply (@run_loop_prints_sent_whatever_the_outcome example_environment example_started).
  reflexivity.
Defined.

Lemma stop_runs_at_most_one_task_witness :
  exists t q,
    ric_rece_task_queue
      (push send_reset_resp (push (rx_task [Byte.x01]) example_established).2).2 = t :: q
    ∧ exists pushed,
        ric_rece_task_queue
          (default example_established
             (@stop example_environment 2
                (push send_reset_resp (push (rx_task [Byte.x01]) example_established).2).2))
        = q ++ pushed.
Proof.
  destruct (@stop_runs_at_most_one_task example_environment 2
              (push send_reset_resp (push (rx_task [Byte.x01]) example_established).2).2
              (default example_established
                 (@stop example_environment 2
                    (push send_reset_resp
                       (push (rx_task [Byte.x01]) example_established).2).2)))
    as (t & q & Hq & _ & pushed & Hleft); [by vm_compute|].
  exists t, q. split; [exact Hq|]. exists pushed. exact Hleft.
Defined.

End e2_facts.
